(** * School_Management: face matching in the two recognition services

    A shallow embedding of the matching logic of
    - [face-recognition-service/main.py] ([compare_faces], [recognize_faces]),
    - [ml-service/app.py] ([match_faces], [process_attendance]),
    and the properties of it that the design document states.

    Numbers: the services compute with double-precision floats.  A float is
    modelled by the rational number it stands for, and the only non-finite
    value the code creates, [float('inf')], by a constructor of its own.  The
    comparisons the code makes ([<=], [<], [>]) are exact on floats and are
    the exact ones here.  In [main.py] the subtraction of two floats and
    [round(x, 4)] are parameters of the development ([fsub], [round4]): the
    service compares distances with the rounded difference [1 - threshold]
    and reports the rounded confidence.  In [app.py] the confidence
    [1 - distance] is written as the difference of the two numbers.  The
    distance between two encodings is the external
    [face_recognition.face_distance]; it is a parameter as well, assumed
    total (all encodings of one call share their dimension). *)

From Stdlib Require Import QArith Qabs Lqa ZArith List Sorted Permutation.
From stdpp Require Import gmap strings list pretty.

Local Open Scope Q_scope.

(** ** Numbers *)

(** An encoding is the list of floats the JSON request carries. *)
Definition Encoding : Type := list Q.

(** [x < y] on floats, as a boolean. *)
Definition Qlt_bool (x y : Q) : bool :=
  (Qnum x * QDen y <? Qnum y * QDen x)%Z.

(** A float that may be infinite: [float('inf')] and what [1 - inf] gives. *)
Inductive xfloat : Type :=
| Fin (q : Q)
| PInf
| NInf.

(** [d < b] for a finite [d]. *)
Definition lt_xfloat (d : Q) (b : xfloat) : bool :=
  match b with
  | Fin q => Qlt_bool d q
  | PInf => true
  | NInf => false
  end.

(** [1 - b]. *)
Definition one_minus (b : xfloat) : xfloat :=
  match b with
  | Fin q => Fin (1 - q)
  | PInf => NInf
  | NInf => PInf
  end.

(** [np.argmin]: the index of the first occurrence of the minimum. *)
Fixpoint argmin_from (i best_i : nat) (best : Q) (l : list Q) : nat :=
  match l with
  | [] => best_i
  | x :: l' =>
      if Qlt_bool x best then argmin_from (S i) i x l'
      else argmin_from (S i) best_i best l'
  end.

Definition argmin (l : list Q) : nat :=
  match l with
  | [] => 0%nat
  | x :: l' => argmin_from 1 0 x l'
  end.

(** Truth value of a Python string: the empty string is false. *)
Definition str_truthy (s : string) : bool :=
  match s with
  | EmptyString => false
  | _ => true
  end.

(** ** face-recognition-service/main.py *)

Module FaceRecognition.

(** [class KnownFace(BaseModel)] *)
Record KnownFace : Type := {
  kf_id : string;
  kf_rollNumber : string;
  kf_name : string;
  kf_encoding : Encoding
}.

(** A face location [(top, right, bottom, left)]. *)
Record Location : Type := {
  top : Z;
  right : Z;
  bottom : Z;
  left : Z
}.

(** [class RecognizedFace(BaseModel)] *)
Record RecognizedFace : Type := {
  rf_id : string;
  rf_rollNumber : string;
  rf_name : string;
  rf_confidence : Q;
  rf_location : Location
}.

(** [class RecognitionResponse(BaseModel)]; [processing_time_ms] is wall-clock
    time and is left out. *)
Record RecognitionResponse : Type := {
  success : bool;
  message : string;
  total_faces_detected : nat;
  recognized : list RecognizedFace;
  unrecognized_count : nat
}.

(** The exceptions [recognize_faces] raises or meets. *)
Inductive exn : Type :=
| HTTPException (status_code : Z) (detail : string)
| JSONDecodeError
| OtherError (msg : string).

(** [known_info]: the entry built for every known face. *)
Record KnownInfo : Type := {
  ki_id : string;
  ki_rollNumber : string;
  ki_name : string
}.

(** The three variables the matching loop updates. *)
Record LoopState : Type := {
  st_recognized : list RecognizedFace;
  st_unrecognized_count : nat;
  st_matched_ids : gset string
}.

Section WithDistance.

Variable face_distance : Encoding -> Encoding -> Q.

(** [str(e)] for an exception; what it prints for an [HTTPException]
    depends on the installed framework. *)
Variable exn_str : exn -> string.

(** [x - y] on floats: the difference, rounded to a float. *)
Variable fsub : Q -> Q -> Q.

(** [round(x, 4)] on floats. *)
Variable round4 : Q -> Q.

(** [compare_faces(known_encodings, face_encoding, tolerance)] *)
Definition compare_faces (known_encodings : list Encoding)
    (face_encoding : Encoding) (tolerance : Q) : Z * Q :=
  if Nat.eqb (length known_encodings) 0 then ((-1)%Z, 0)
  else
    let face_distances :=
      map (fun k => face_distance k face_encoding) known_encodings in
    let best_match_index := argmin face_distances in
    let best_distance := nth best_match_index face_distances 0 in
    let confidence := fsub 1 best_distance in
    if Qle_bool best_distance tolerance
    then (Z.of_nat best_match_index, confidence)
    else ((-1)%Z, confidence).

Definition known_info_default : KnownInfo :=
  {| ki_id := ""; ki_rollNumber := ""; ki_name := "" |}.

(** One turn of [for i, (face_encoding, location) in enumerate(zip(...))]. *)
Definition recognize_step (known_encodings : list Encoding)
    (known_info : list KnownInfo) (tolerance : Q)
    (st : LoopState) (face : Encoding * Location) : LoopState :=
  let '(face_encoding, location) := face in
  let '(match_index, confidence) :=
    compare_faces known_encodings face_encoding tolerance in
  let info := nth (Z.to_nat match_index) known_info known_info_default in
  if (0 <=? match_index)%Z && negb (bool_decide (ki_id info ∈ st_matched_ids st))
  then
    {| st_recognized :=
         st_recognized st ++
         [ {| rf_id := ki_id info;
              rf_rollNumber := ki_rollNumber info;
              rf_name := ki_name info;
              rf_confidence := round4 confidence;
              rf_location := location |} ];
       st_unrecognized_count := st_unrecognized_count st;
       st_matched_ids := st_matched_ids st ∪ {[ ki_id info ]} |}
  else
    {| st_recognized := st_recognized st;
       st_unrecognized_count := S (st_unrecognized_count st);
       st_matched_ids := st_matched_ids st |}.

Definition recognize_init : LoopState :=
  {| st_recognized := []; st_unrecognized_count := 0; st_matched_ids := ∅ |}.

Definition recognize_loop (known_encodings : list Encoding)
    (known_info : list KnownInfo) (tolerance : Q)
    (faces : list (Encoding * Location)) : LoopState :=
  fold_left (recognize_step known_encodings known_info tolerance)
    faces recognize_init.

(** The body of the [try] block of [recognize_faces].  [known_faces_data] is
    the parsed [known_faces] form field; [faces] is what the detector and the
    encoder return for the photo, zipped. *)
Definition recognize_faces_body (known_faces_data : list KnownFace)
    (faces : list (Encoding * Location)) (threshold : Q)
    : exn + RecognitionResponse :=
  if Nat.eqb (length known_faces_data) 0
  then inl (HTTPException 400 "No known faces provided")
  else
    let known_encodings := map kf_encoding known_faces_data in
    let known_info :=
      map (fun face => {| ki_id := kf_id face;
                          ki_rollNumber := kf_rollNumber face;
                          ki_name := kf_name face |}) known_faces_data in
    if Nat.eqb (length faces) 0
    then inr {| success := true;
                message := "No faces detected in the image";
                total_faces_detected := 0;
                recognized := [];
                unrecognized_count := 0 |}
    else
      let tolerance := fsub 1 threshold in
      let st := recognize_loop known_encodings known_info tolerance faces in
      inr {| success := true;
             message := "Recognized " +:+ pretty (length (st_recognized st))
                        +:+ " out of " +:+ pretty (length faces) +:+ " faces";
             total_faces_detected := length faces;
             recognized := st_recognized st;
             unrecognized_count := st_unrecognized_count st |}.

(** The [except] clauses of [recognize_faces]: a JSON error becomes a 400,
    every other exception, an [HTTPException] raised in the body included
    (it is an [Exception]), becomes a 500. *)
Definition recognize_faces_handler (r : exn + RecognitionResponse)
    : exn + RecognitionResponse :=
  match r with
  | inr resp => inr resp
  | inl JSONDecodeError =>
      inl (HTTPException 400 "Invalid JSON format for known_faces")
  | inl e => inl (HTTPException 500 (exn_str e))
  end.

(** [POST /recognize] *)
Definition recognize_faces (known_faces_data : list KnownFace)
    (faces : list (Encoding * Location)) (threshold : Q)
    : exn + RecognitionResponse :=
  recognize_faces_handler
    (recognize_faces_body known_faces_data faces threshold).

End WithDistance.

End FaceRecognition.

(** ** ml-service/app.py *)

Module MlService.

(** A reply of a Flask view: [jsonify({'error': ...}), status] or a body. *)
Record HttpError : Type := {
  err_status : Z;
  err_error : string
}.

(** The JSON body of [POST /match-faces].  [references] is the JSON object,
    as its items in insertion order. *)
Record MatchRequest : Type := {
  req_detected : option (list Encoding);
  req_references : option (list (string * Encoding));
  req_tolerance : option Q
}.

(** An entry of [matches]. *)
Record Match : Type := {
  faceId : nat;
  studentId : string;
  confidence : xfloat;
  distance : xfloat
}.

Record MatchResponse : Type := {
  m_success : bool;
  matches : list Match;
  m_totalDetected : nat;
  m_totalMatched : nat
}.

(** [best_match] and [best_distance] of the inner loop of [match_faces]. *)
Record BestState : Type := {
  best_match : option string;
  best_distance : xfloat
}.

(** An entry of the parsed [students] form field; [faceEncoding] may be
    absent or [null]. *)
Record Student : Type := {
  s_id : string;
  s_name : string;
  s_rollNumber : string;
  s_faceEncoding : option Encoding
}.

(** An entry of [results]; the key [reason] exists in one branch only. *)
Record AttendanceResult : Type := {
  a_studentId : string;
  a_name : string;
  a_rollNumber : string;
  a_detected : bool;
  a_confidence : Q;
  a_status : string;
  a_reason : option string
}.

(** The body of a successful [POST /process-attendance]; the early reply has
    a [message] and no totals. *)
Record AttendanceResponse : Type := {
  a_success : bool;
  a_message : option string;
  results : list AttendanceResult;
  totalStudents : option nat;
  totalDetected : option nat;
  totalMatched : option nat
}.

(** [results] and [matched_students] of the loop over the students. *)
Record AttendanceState : Type := {
  as_results : list AttendanceResult;
  as_matched_students : gset string
}.

Section WithDistance.

Variable face_distance : Encoding -> Encoding -> Q.

(** One turn of [for student_id, reference_encoding in
    reference_encodings.items()]. *)
Definition match_inner_step (detected_encoding : Encoding) (tolerance : Q)
    (st : BestState) (ref : string * Encoding) : BestState :=
  let '(student_id, reference_encoding) := ref in
  let distance := face_distance reference_encoding detected_encoding in
  if Qlt_bool distance tolerance && lt_xfloat distance (best_distance st)
  then {| best_match := Some student_id; best_distance := Fin distance |}
  else st.

Definition match_inner_loop (reference_encodings : list (string * Encoding))
    (detected_encoding : Encoding) (tolerance : Q) : BestState :=
  fold_left (match_inner_step detected_encoding tolerance)
    reference_encodings
    {| best_match := None; best_distance := PInf |}.

(** What one detected encoding adds to [matches]; [if best_match:] is false
    for [None] and for an empty identifier. *)
Definition match_one (reference_encodings : list (string * Encoding))
    (tolerance : Q) (i : nat) (detected_encoding : Encoding) : list Match :=
  let st := match_inner_loop reference_encodings detected_encoding tolerance in
  match best_match st with
  | Some student_id =>
      if str_truthy student_id
      then [ {| faceId := i;
                studentId := student_id;
                confidence := one_minus (best_distance st);
                distance := best_distance st |} ]
      else []
  | None => []
  end.

(** [for i, detected_encoding in enumerate(detected_encodings)], from
    index [i]. *)
Fixpoint match_loop (reference_encodings : list (string * Encoding))
    (tolerance : Q) (i : nat) (detected_encodings : list Encoding)
    : list Match :=
  match detected_encodings with
  | [] => []
  | detected_encoding :: rest =>
      match_one reference_encodings tolerance i detected_encoding ++
      match_loop reference_encodings tolerance (S i) rest
  end.

(** [POST /match-faces].  [data] is [request.get_json()]. *)
Definition match_faces (data : option MatchRequest)
    : HttpError + MatchResponse :=
  match data with
  | Some {| req_detected := Some detected;
            req_references := Some references;
            req_tolerance := tol |} =>
      let detected_encodings := detected in
      let reference_encodings := references in
      let tolerance := match tol with Some t => t | None => 6 # 10 end in
      let matches := match_loop reference_encodings tolerance 0 detected_encodings in
      inr {| m_success := true;
             matches := matches;
             m_totalDetected := length detected_encodings;
             m_totalMatched := length matches |}
  | _ => inl {| err_status := 400; err_error := "Missing required data" |}
  end.

(** [if not student.get('faceEncoding')] *)
Definition no_faceEncoding (student : Student) : bool :=
  match s_faceEncoding student with
  | None => true
  | Some [] => true
  | Some (_ :: _) => false
  end.

(** One turn of [for detected_encoding in all_detected_faces]; the state is
    [(best_match, best_confidence)]. *)
Definition attendance_inner_step (reference_encoding : Encoding)
    (st : bool * Q) (detected_encoding : Encoding) : bool * Q :=
  let distance := face_distance reference_encoding detected_encoding in
  let confidence := 1 - distance in
  if Qlt_bool distance (6 # 10) && Qlt_bool (snd st) confidence
  then (true, confidence)
  else st.

Definition attendance_inner_loop (reference_encoding : Encoding)
    (all_detected_faces : list Encoding) : bool * Q :=
  fold_left (attendance_inner_step reference_encoding)
    all_detected_faces (false, 0).

(** One turn of [for student in students]. *)
Definition attendance_step (all_detected_faces : list Encoding)
    (st : AttendanceState) (student : Student) : AttendanceState :=
  let student_id := s_id student in
  if no_faceEncoding student
  then
    {| as_results :=
         as_results st ++
         [ {| a_studentId := student_id;
              a_name := s_name student;
              a_rollNumber := s_rollNumber student;
              a_detected := false;
              a_confidence := 0;
              a_status := "ABSENT";
              a_reason := Some "No reference photo" |} ];
       as_matched_students := as_matched_students st |}
  else
    let reference_encoding := default [] (s_faceEncoding student) in
    let '(best_match, best_confidence) :=
      attendance_inner_loop reference_encoding all_detected_faces in
    if best_match
    then
      {| as_results :=
           as_results st ++
           [ {| a_studentId := student_id;
                a_name := s_name student;
                a_rollNumber := s_rollNumber student;
                a_detected := true;
                a_confidence := best_confidence;
                a_status := "PRESENT";
                a_reason := None |} ];
         as_matched_students := as_matched_students st ∪ {[ student_id ]} |}
    else
      {| as_results :=
           as_results st ++
           [ {| a_studentId := student_id;
                a_name := s_name student;
                a_rollNumber := s_rollNumber student;
                a_detected := false;
                a_confidence := 0;
                a_status := "ABSENT";
                a_reason := None |} ];
         as_matched_students := as_matched_students st |}.

Definition attendance_loop (all_detected_faces : list Encoding)
    (students : list Student) : AttendanceState :=
  fold_left (attendance_step all_detected_faces) students
    {| as_results := []; as_matched_students := ∅ |}.

(** [for photo in photos]: a photo that does not load is skipped, one with
    faces extends [all_detected_faces] with their encodings.  A photo is given
    as [None] when it does not load, as the encodings found in it
    otherwise. *)
Definition collect_detected_faces (photos : list (option (list Encoding)))
    : list Encoding :=
  fold_left
    (fun all_detected_faces photo =>
       match photo with
       | None => all_detected_faces
       | Some face_encodings =>
           if (0 <? length face_encodings)%nat
           then all_detected_faces ++ face_encodings
           else all_detected_faces
       end)
    photos [].

(** [POST /process-attendance].  [students_json] is the [students] form
    field, parsed; [None] when the field is missing or empty. *)
Definition process_attendance (photos : list (option (list Encoding)))
    (students_json : option (list Student))
    : HttpError + AttendanceResponse :=
  if Nat.eqb (length photos) 0
  then inl {| err_status := 400; err_error := "No photos provided" |}
  else
    match students_json with
    | None => inl {| err_status := 400; err_error := "No student data provided" |}
    | Some students =>
        let all_detected_faces := collect_detected_faces photos in
        if Nat.eqb (length all_detected_faces) 0
        then inr {| a_success := true;
                    a_message := Some "No faces detected in photos";
                    results := [];
                    totalStudents := None;
                    totalDetected := None;
                    totalMatched := None |}
        else
          let st := attendance_loop all_detected_faces students in
          inr {| a_success := true;
                 a_message := None;
                 results := as_results st;
                 totalStudents := Some (length students);
                 totalDetected := Some (length all_detected_faces);
                 totalMatched := Some (size (as_matched_students st)) |}
    end.

End WithDistance.

End MlService.

(** ** face-recognition-service/main.py: the middleware and [encode_face] *)

Module FaceRecognitionApi.

Import FaceRecognition.

(** Truth value of the result of [headers.get] or [os.getenv]: [None] and
    the empty string are false. *)
Definition opt_truthy (o : option string) : bool :=
  match o with
  | Some s => str_truthy s
  | None => false
  end.

(** What [APIKeyMiddleware.dispatch] does with a request: hand it to the
    endpoint ([call_next]) or answer itself. *)
Inductive Dispatched : Type :=
| CallNext
| JSONResponse (status_code : Z) (detail : string).

(** [APIKeyMiddleware.dispatch].  [path] is [request.url.path], [api_key] the
    header [X-API-Key], [expected_key] the environment variable [API_KEY]. *)
Definition dispatch (path : string) (api_key expected_key : option string)
    : Dispatched :=
  if String.eqb path "/health" then CallNext
  else if negb (opt_truthy expected_key) then CallNext
  else if negb (opt_truthy api_key)
  then JSONResponse 401 "API key is missing"
  else if bool_decide (api_key <> expected_key)
  then JSONResponse 403 "Invalid API key"
  else CallNext.

(** [class EncodingResponse(BaseModel)] *)
Record EncodingResponse : Type := {
  er_success : bool;
  er_message : string;
  er_encoding : option Encoding;
  er_face_count : nat
}.

(** [POST /encode].  [face_locations] is what the detector returns for the
    image, [encodings] what the encoder returns for these locations. *)
Definition encode_face (face_locations : list Location)
    (encodings : list Encoding) : EncodingResponse :=
  if Nat.eqb (length face_locations) 0
  then {| er_success := false;
          er_message := "No face detected in the image";
          er_encoding := None;
          er_face_count := 0 |}
  else if (1 <? length face_locations)%nat
  then {| er_success := false;
          er_message := "Multiple faces detected ("
                        +:+ pretty (length face_locations)
                        +:+ "). Please upload an image with only one face.";
          er_encoding := None;
          er_face_count := length face_locations |}
  else
    match encodings with
    | [] => {| er_success := false;
               er_message := "Could not extract face encoding";
               er_encoding := None;
               er_face_count := 1 |}
    | encoding :: _ =>
        {| er_success := true;
           er_message := "Face encoding extracted successfully";
           er_encoding := Some encoding;
           er_face_count := 1 |}
    end.

End FaceRecognitionApi.

(** ** ml-service/app.py: the other endpoints *)

Module MlServiceApi.

Import FaceRecognition MlService.

(** The uploaded photo of a request, as the endpoints see it: [None] when
    the form has no [photo] file, [Some None] when the file does not load as
    an image, otherwise the face locations found in the image and the
    encodings the encoder returns for them. *)
Definition Photo : Type := option (option (list Location * list Encoding)).

(** The body of a successful [POST /generate-encoding]. *)
Record GenerateResponse : Type := {
  g_success : bool;
  g_encoding : Encoding;
  g_face_location : Location
}.

(** [POST /generate-encoding] *)
Definition generate_encoding (photo : Photo) : HttpError + GenerateResponse :=
  match photo with
  | None => inl {| err_status := 400; err_error := "No photo provided" |}
  | Some None => inl {| err_status := 400; err_error := "Invalid image file" |}
  | Some (Some (face_locations, face_encodings)) =>
      match face_locations with
      | [] => inl {| err_status := 400;
                     err_error := "No face detected in image" |}
      | _ :: _ :: _ =>
          inl {| err_status := 400;
                 err_error := "Multiple faces detected. Please use a photo with only one face" |}
      | [location] =>
          match face_encodings with
          | [] => inl {| err_status := 400;
                         err_error := "Could not generate face encoding" |}
          | encoding :: _ =>
              inr {| g_success := true;
                     g_encoding := encoding;
                     g_face_location :=
                       {| top := top location;
                          right := right location;
                          bottom := bottom location;
                          left := left location |} |}
          end
      end
  end.

(** An entry of [faces] in the answer of [POST /detect-faces]. *)
Record DetectedFace : Type := {
  df_id : nat;
  df_encoding : Encoding;
  df_location : Location
}.

Record DetectResponse : Type := {
  d_success : bool;
  d_faces : list DetectedFace;
  d_count : nat
}.

(** [for i, (encoding, location) in enumerate(zip(face_encodings,
    face_locations))], from index [i]. *)
Fixpoint detect_loop (i : nat) (pairs : list (Encoding * Location))
    : list DetectedFace :=
  match pairs with
  | [] => []
  | (encoding, location) :: rest =>
      {| df_id := i;
         df_encoding := encoding;
         df_location :=
           {| top := top location;
              right := right location;
              bottom := bottom location;
              left := left location |} |}
      :: detect_loop (S i) rest
  end.

(** [POST /detect-faces] *)
Definition detect_faces (photo : Photo) : HttpError + DetectResponse :=
  match photo with
  | None => inl {| err_status := 400; err_error := "No photo provided" |}
  | Some None => inl {| err_status := 400; err_error := "Invalid image file" |}
  | Some (Some (face_locations, face_encodings)) =>
      if Nat.eqb (length face_locations) 0
      then inr {| d_success := true; d_faces := []; d_count := 0 |}
      else
        let faces := detect_loop 0 (zip face_encodings face_locations) in
        inr {| d_success := true; d_faces := faces; d_count := length faces |}
  end.

End MlServiceApi.

(** ** The assignment policy as the design document words it *)

Module Spec.

Import FaceRecognition.

Section WithDistance.

Variable face_distance : Encoding -> Encoding -> Q.

(** GreedyExclusiveByDetection in the document's words: for each detection,
    among the references not yet claimed by an earlier detection, pick the one
    at minimum distance; if that distance is within the tolerance, emit a
    matched decision and mark the reference as claimed, otherwise emit an
    unmatched decision.  The state is the decisions so far (the identity
    matched, if any) and the claimed identities. *)
Definition greedy_exclusive_step (references : list KnownFace) (tolerance : Q)
    (st : list (option string) * gset string) (detection : Encoding)
    : list (option string) * gset string :=
  let '(decisions, claimed) := st in
  let unclaimed :=
    filter (fun k => negb (bool_decide (kf_id k ∈ claimed))) references in
  let distances := map (fun k => face_distance (kf_encoding k) detection) unclaimed in
  match nth_error unclaimed (argmin distances) with
  | Some k =>
      if Qle_bool (face_distance (kf_encoding k) detection) tolerance
      then (decisions ++ [Some (kf_id k)], claimed ∪ {[ kf_id k ]})
      else (decisions ++ [None], claimed)
  | None => (decisions ++ [None], claimed)
  end.

Definition greedy_exclusive (references : list KnownFace) (tolerance : Q)
    (detections : list Encoding) : list (option string) :=
  fst (fold_left (greedy_exclusive_step references tolerance) detections ([], ∅)).

(** The identities of the matched decisions, in order. *)
Definition matched_ids (decisions : list (option string)) : list string :=
  omap id decisions.

End WithDistance.

End Spec.

(** ** Concrete data for the examples *)

Module Examples.

Import FaceRecognition MlService.

(** The Euclidean distance of one-dimensional encodings. *)
Definition dist1 (a b : Encoding) : Q :=
  Qabs (hd 0 a - hd 0 b).

(** In the examples the subtraction of floats is [Qminus]: the differences
    taken there, [1 - 0.4], [1 - 0.5] and [1 - 0.2], are floats. *)

(** Rounding to the nearest integer, ties to even. *)
Definition round_half_even (q : Q) : Z :=
  let n := Qnum q in
  let d := Zpos (Qden q) in
  let f := (n / d)%Z in
  let r2 := (2 * (n mod d))%Z in
  if (r2 <? d)%Z then f
  else if (d <? r2)%Z then (f + 1)%Z
  else if Z.even f then f else (f + 1)%Z.

(** An instance of [round4] for the examples: rounding to the nearest
    multiple of 1/10000. *)
Definition round4_decimal (q : Q) : Q :=
  Qmake (round_half_even (q * 10000)) 10000.

Definition exn_str (e : exn) : string :=
  match e with
  | HTTPException status_code detail => detail
  | JSONDecodeError => "JSONDecodeError"
  | OtherError msg => msg
  end.

Definition loc0 : Location := {| top := 0; right := 10; bottom := 10; left := 0 |}.
Definition loc1 : Location := {| top := 0; right := 30; bottom := 10; left := 20 |}.

Definition known_A : KnownFace :=
  {| kf_id := "A"; kf_rollNumber := "1"; kf_name := "Asha"; kf_encoding := [0] |}.
Definition known_B : KnownFace :=
  {| kf_id := "B"; kf_rollNumber := "2"; kf_name := "Bala"; kf_encoding := [3 # 10] |}.

(** Two faces, both closest to [known_A] (distances 0 and 1/10); the second
    is at 2/10 from [known_B]. *)
Definition two_faces : list (Encoding * Location) :=
  [ ([0], loc0); ([1 # 10], loc1) ].

Definition student_A : Student :=
  {| s_id := "A"; s_name := "Asha"; s_rollNumber := "1"; s_faceEncoding := Some [0] |}.
Definition student_none : Student :=
  {| s_id := "N"; s_name := "Nila"; s_rollNumber := "3"; s_faceEncoding := None |}.

Definition known_AB : list KnownFace := [known_A; known_B].


(** Two references at the same distance 1/10 from the face [[0]]. *)
Definition tied_encodings : list Encoding := [[1 # 10]; [-1 # 10]].
Definition tied_references : list (string * Encoding) :=
  [("P", [1 # 10]); ("Q", [-1 # 10])].

(** The match of a face to the reference [A] at [[0]]. *)
Definition match_of_A (i : nat) (e : Encoding) : Match :=
  {| faceId := i;
     studentId := "A";
     confidence := Fin (1 - dist1 [0] e);
     distance := Fin (dist1 [0] e) |}.

(** An uploaded photo with two faces. *)
Definition photo_two_faces : option (option (list Location * list Encoding)) :=
  Some (Some ([loc0; loc1], [[0]; [1 # 10]])).

(** Two photos: one without a face, one that does not load. *)
Definition photos_without_faces : list (option (list Encoding)) :=
  [Some []; None].

Definition request (detected : list Encoding)
    (references : list (string * Encoding)) (tolerance : Q) : option MatchRequest :=
  Some {| req_detected := Some detected;
          req_references := Some references;
          req_tolerance := Some tolerance |}.

End Examples.

(** ** Vocabulary of the statements *)

Import FaceRecognition MlService.

(** [d] is the value at index [i] of [l], no element of [l] is smaller, and
    every element before [i] is strictly larger: [i] is the first position
    of the minimum. *)
Definition first_min_at (l : list Q) (i : nat) (d : Q) : Prop :=
  l !! i = Some d /\
  (forall x, x ∈ l -> d <= x) /\
  (forall j x, (j < i)%nat -> l !! j = Some x -> d < x).

(** The record [recognize_faces] appends for a face matched to [info]. *)
Definition recognized_entry (fsub : Q -> Q -> Q) (round4 : Q -> Q)
    (info : KnownInfo) (d : Q) (location : Location) : RecognizedFace :=
  {| rf_id := ki_id info;
     rf_rollNumber := ki_rollNumber info;
     rf_name := ki_name info;
     rf_confidence := round4 (fsub 1 d);
     rf_location := location |}.

(** The loop invariant: the claimed identifiers are those of the records, no
    identifier occurs twice, and every face seen so far was either recorded or
    counted. *)
Definition recognize_inv (n : nat) (st : LoopState) : Prop :=
  (forall id, id ∈ st_matched_ids st <-> id ∈ map rf_id (st_recognized st)) /\
  NoDup (map rf_id (st_recognized st)) /\
  (length (st_recognized st) + st_unrecognized_count st = n)%nat.

(** [d] is a minimum of [l]. *)
Definition is_minimum (d : Q) (l : list Q) : Prop :=
  d ∈ l /\ forall x, x ∈ l -> d <= x.

(** [is_minimum], computed. *)
Definition is_minimum_b (d : Q) (l : list Q) : bool :=
  existsb (fun x => (Qnum x =? Qnum d)%Z && (Qden x =? Qden d)%positive) l &&
  forallb (Qle_bool d) l.

(** The distances from every reference of a [references] object to a face. *)
Definition reference_distances (face_distance : Encoding -> Encoding -> Q)
    (references : list (string * Encoding)) (e : Encoding) : list Q :=
  map (fun ref => face_distance (snd ref) e) references.

(** The distances from a reference to every face of the pool. *)
Definition pool_distances (face_distance : Encoding -> Encoding -> Q)
    (reference_encoding : Encoding) (pool : list Encoding) : list Q :=
  map (fun e => face_distance reference_encoding e) pool.

(** The entry of [known_info] built for a known face. *)
Definition known_info_of (face : KnownFace) : KnownInfo :=
  {| ki_id := kf_id face;
     ki_rollNumber := kf_rollNumber face;
     ki_name := kf_name face |}.


(** The record [process_attendance] gives a student without reference. *)
Definition no_reference_verdict (s : Student) : AttendanceResult :=
  {| a_studentId := s_id s;
     a_name := s_name s;
     a_rollNumber := s_rollNumber s;
     a_detected := false;
     a_confidence := 0;
     a_status := "ABSENT";
     a_reason := Some "No reference photo" |}.

(** The matches of an answer of [match_faces]; none for an error. *)
Definition matches_of (r : HttpError + MatchResponse) : list Match :=
  match r with
  | inr m => matches m
  | inl _ => []
  end.

(** A match whose face index is moved by [n]. *)
Definition shift_faceId (n : nat) (m : Match) : Match :=
  {| faceId := n + faceId m;
     studentId := studentId m;
     confidence := confidence m;
     distance := distance m |}.

(** The JSON body of a [match_faces] request with all three keys. *)
Definition match_request (detected : list Encoding)
    (references : list (string * Encoding)) (tolerance : option Q)
    : option MatchRequest :=
  Some {| req_detected := Some detected;
          req_references := Some references;
          req_tolerance := tolerance |}.

(** Two attendance records that say the same: same student, same status,
    same flag, equal confidence. *)
Definition same_verdict (a a' : AttendanceResult) : Prop :=
  a_studentId a = a_studentId a' /\
  a_status a = a_status a' /\
  a_detected a = a_detected a' /\
  a_confidence a == a_confidence a'.

(** The results of an answer of [process_attendance]; none for an error. *)
Definition results_of (r : HttpError + AttendanceResponse)
    : list AttendanceResult :=
  match r with
  | inr resp => results resp
  | inl _ => []
  end.

(** The verdict for a student with a reference encoding [enc], against the
    pool. *)
Definition verdict_against_pool (face_distance : Encoding -> Encoding -> Q)
    (pool : list Encoding) (s : Student)
    (a : AttendanceResult) : Prop :=
  a_studentId a = s_id s /\
  forall enc, s_faceEncoding s = Some enc -> enc <> [] ->
    (a_status a = "PRESENT" /\ a_detected a = true /\
     exists e, e ∈ pool /\
               face_distance enc e < 6 # 10 /\
               a_confidence a = 1 - face_distance enc e /\
               forall e', e' ∈ pool -> face_distance enc e <= face_distance enc e') \/
    (a_status a = "ABSENT" /\ a_detected a = false /\
     a_confidence a = 0 /\ a_reason a = None /\
     forall e, e ∈ pool -> 6 # 10 <= face_distance enc e).

(** The flag, the status and the confidence of an attendance record agree. *)
Definition consistent_verdict (a : AttendanceResult) : Prop :=
  (a_status a = "PRESENT" /\ a_detected a = true /\ a_reason a = None /\
   4 # 10 < a_confidence a) \/
  (a_status a = "ABSENT" /\ a_detected a = false /\ a_confidence a = 0).

(** The students that have a reference encoding, as a [references] object
    of [match_faces]. *)
Definition references_of_students (students : list Student)
    : list (string * Encoding) :=
  omap (fun s => match s_faceEncoding s with
                 | Some (x :: enc) => Some (s_id s, x :: enc)
                 | _ => None
                 end) students.

(** A student whom [process_attendance] does not find: no reference
    encoding, or every pooled face at 0.6 or more from the reference. *)
Definition not_found (face_distance : Encoding -> Encoding -> Q)
    (pool : list Encoding) (s : Student) : Prop :=
  no_faceEncoding s = true \/
  forall e, e ∈ pool ->
    6 # 10 <= face_distance (default [] (s_faceEncoding s)) e.

(** The record of a student: it is the student's, and for a student who is
    not found it says [ABSENT] with the confidence 0. *)
Definition absent_with_zero (face_distance : Encoding -> Encoding -> Q)
    (pool : list Encoding) (s : Student) (a : AttendanceResult) : Prop :=
  a_studentId a = s_id s /\
  (not_found face_distance pool s ->
   a_status a = "ABSENT" /\ a_detected a = false /\ a_confidence a = 0).

(** * Properties *)

(** ** Comparisons and [argmin] *)

Lemma Qlt_bool_iff (x y : Q) : Qlt_bool x y = true <-> x < y.
Proof. unfold Qlt_bool, Qlt. apply Z.ltb_lt. Qed.

Lemma Qlt_bool_false (x y : Q) : Qlt_bool x y = false <-> y <= x.
Proof. unfold Qlt_bool, Qle. apply Z.ltb_ge. Qed.

Lemma Qle_bool_false (x y : Q) : Qle_bool x y = false <-> y < x.
Proof.
  split; intros H.
  - apply Qnot_le_lt. intros Hle. apply Qle_bool_iff in Hle. congruence.
  - destruct (Qle_bool x y) eqn:E; [|reflexivity].
    apply Qle_bool_iff in E. exfalso. apply (Qlt_not_le _ _ H E).
Qed.

Lemma argmin_from_spec (l pre : list Q) (best_i : nat) (best : Q) :
  first_min_at pre best_i best ->
  exists d, first_min_at (pre ++ l) (argmin_from (length pre) best_i best l) d.
Proof.
  revert pre best_i best.
  induction l as [|x l IH]; intros pre best_i best (Hat & Hmin & Hfirst); simpl.
  - exists best. rewrite app_nil_r. repeat split; assumption.
  - assert (Hlen : length (pre ++ [x]) = S (length pre))
      by (rewrite length_app; simpl; lia).
    replace (pre ++ x :: l) with ((pre ++ [x]) ++ l)
      by (rewrite <- app_assoc; reflexivity).
    rewrite <- Hlen.
    destruct (Qlt_bool x best) eqn:E.
    + apply Qlt_bool_iff in E. apply IH. repeat split.
      * rewrite lookup_app_r by lia. rewrite Nat.sub_diag. reflexivity.
      * intros y Hy. apply elem_of_app in Hy as [Hy|Hy].
        -- apply Qlt_le_weak, (Qlt_le_trans _ best); auto.
        -- apply list_elem_of_singleton in Hy. subst y. apply Qle_refl.
      * intros j y Hj Hy. rewrite lookup_app_l in Hy by lia.
        apply (Qlt_le_trans _ best); [assumption|].
        apply Hmin. eapply list_elem_of_lookup_2; eassumption.
    + apply Qlt_bool_false in E. apply IH. repeat split.
      * rewrite lookup_app_l; [assumption|]. eapply lookup_lt_Some; eassumption.
      * intros y Hy. apply elem_of_app in Hy as [Hy|Hy]; [auto|].
        apply list_elem_of_singleton in Hy. subst y. assumption.
      * intros j y Hj Hy. apply (Hfirst j); [assumption|].
        apply lookup_lt_Some in Hat.
        rewrite lookup_app_l in Hy by lia. assumption.
Qed.

Lemma argmin_spec (l : list Q) :
  l <> [] -> exists d, first_min_at l (argmin l) d.
Proof.
  destruct l as [|x l]; [congruence|]. intros _. unfold argmin.
  apply (argmin_from_spec l [x] 0 x). repeat split.
  - intros y Hy. apply list_elem_of_singleton in Hy. subst y. apply Qle_refl.
  - intros j y Hj. lia.
Qed.

Lemma first_min_at_nth (l : list Q) (i : nat) (d : Q) :
  first_min_at l i d -> nth i l 0 = d /\ (i < length l)%nat.
Proof.
  intros (Hat & _). split.
  - apply nth_lookup_Some with (d := 0) in Hat. assumption.
  - eapply lookup_lt_Some; eassumption.
Qed.

(** ** [recognize_faces]: the loop and its invariant *)

Section RecognizeProperties.

Variable face_distance : Encoding -> Encoding -> Q.
Variable exn_str : exn -> string.
Variable fsub : Q -> Q -> Q.
Variable round4 : Q -> Q.

Lemma compare_faces_nonempty (known_encodings : list Encoding)
    (e : Encoding) (tol : Q) :
  known_encodings <> [] ->
  let dists := map (fun k => face_distance k e) known_encodings in
  let d := nth (argmin dists) dists 0 in
  compare_faces face_distance fsub known_encodings e tol =
    ((if Qle_bool d tol then Z.of_nat (argmin dists) else (-1)%Z), fsub 1 d).
Proof.
  intros Hne. destruct known_encodings as [|k ks]; [congruence|].
  unfold compare_faces. cbn [length Nat.eqb].
  destruct (Qle_bool _ tol); reflexivity.
Qed.

Lemma recognize_step_nonempty (known_encodings : list Encoding)
    (known_info : list KnownInfo) (tol : Q) (st : LoopState)
    (e : Encoding) (loc : Location) :
  known_encodings <> [] ->
  let dists := map (fun k => face_distance k e) known_encodings in
  let d := nth (argmin dists) dists 0 in
  let info := nth (argmin dists) known_info known_info_default in
  recognize_step face_distance fsub round4 known_encodings known_info tol st (e, loc) =
    if Qle_bool d tol && negb (bool_decide (ki_id info ∈ st_matched_ids st))
    then {| st_recognized := st_recognized st ++ [recognized_entry fsub round4 info d loc];
            st_unrecognized_count := st_unrecognized_count st;
            st_matched_ids := st_matched_ids st ∪ {[ ki_id info ]} |}
    else {| st_recognized := st_recognized st;
            st_unrecognized_count := S (st_unrecognized_count st);
            st_matched_ids := st_matched_ids st |}.
Proof.
  intros Hne dists d info. unfold recognize_step.
  rewrite (compare_faces_nonempty _ e tol Hne). fold dists d.
  destruct (Qle_bool d tol); cbn [andb].
  - rewrite Nat2Z.id. fold info.
    replace (0 <=? Z.of_nat (argmin dists))%Z with true
      by (symmetry; apply Z.leb_le; lia).
    reflexivity.
  - reflexivity.
Qed.

(** Whatever the known faces are, a turn of the loop either appends one record
    whose identifier was not claimed and claims it, or counts the face as
    unrecognized. *)
Lemma recognize_step_cases (known_encodings : list Encoding)
    (known_info : list KnownInfo) (tol : Q) (st : LoopState)
    (face : Encoding * Location) :
  let st' := recognize_step face_distance fsub round4 known_encodings known_info tol st face in
  (exists r, st_recognized st' = st_recognized st ++ [r] /\
             (rf_id r ∉ st_matched_ids st) /\
             st_matched_ids st' = st_matched_ids st ∪ {[ rf_id r ]} /\
             st_unrecognized_count st' = st_unrecognized_count st) \/
  (st_recognized st' = st_recognized st /\
   st_matched_ids st' = st_matched_ids st /\
   st_unrecognized_count st' = S (st_unrecognized_count st)).
Proof.
  destruct face as [e loc]. unfold recognize_step.
  destruct (compare_faces _ _ _ _) as [match_index conf].
  destruct (_ && _) eqn:E.
  - left. eexists. cbn. repeat split.
    apply andb_true_iff in E as [_ E]. apply negb_true_iff in E.
    apply bool_decide_eq_false in E. exact E.
  - right. cbn. auto.
Qed.

Lemma recognize_loop_snoc (known_encodings : list Encoding)
    (known_info : list KnownInfo) (tol : Q)
    (faces : list (Encoding * Location)) (face : Encoding * Location) :
  recognize_loop face_distance fsub round4 known_encodings known_info tol (faces ++ [face]) =
  recognize_step face_distance fsub round4 known_encodings known_info tol
    (recognize_loop face_distance fsub round4 known_encodings known_info tol faces) face.
Proof. unfold recognize_loop. rewrite fold_left_app. reflexivity. Qed.

Lemma recognize_loop_inv (known_encodings : list Encoding)
    (known_info : list KnownInfo) (tol : Q)
    (faces : list (Encoding * Location)) :
  recognize_inv (length faces)
    (recognize_loop face_distance fsub round4 known_encodings known_info tol faces).
Proof.
  induction faces as [|face faces IH] using rev_ind.
  - unfold recognize_inv. cbn. repeat split; try set_solver. constructor.
  - rewrite recognize_loop_snoc, length_app. cbn [length].
    destruct IH as (Hids & Hnodup & Hcount).
    pose proof (recognize_step_cases known_encodings known_info tol
      (recognize_loop face_distance fsub round4 known_encodings known_info tol faces) face)
      as [(r & Hrec & Hfresh & Hclaimed & Hunrec)|(Hrec & Hclaimed & Hunrec)];
      cbv zeta in *; unfold recognize_inv;
      rewrite Hrec, Hclaimed, Hunrec.
    + rewrite map_app, length_app. cbn [map length]. repeat split.
      * rewrite elem_of_union, elem_of_singleton, elem_of_app,
          list_elem_of_singleton, Hids. tauto.
      * rewrite elem_of_union, elem_of_singleton, elem_of_app,
          list_elem_of_singleton, Hids. tauto.
      * apply NoDup_app. repeat split; [assumption| |apply NoDup_singleton].
        intros x Hx Hx'. apply list_elem_of_singleton in Hx'. subst x.
        apply Hfresh, Hids, Hx.
      * lia.
    + repeat split; try assumption; try (apply Hids); lia.
Qed.

(** C4. In one call of [recognize_faces] no identity is given to two faces:
    the identifiers of the recognized records are pairwise distinct. *)
Theorem recognize_faces_identities_distinct
    (known_faces_data : list KnownFace) (faces : list (Encoding * Location))
    (threshold : Q) (r : RecognitionResponse) :
  recognize_faces face_distance exn_str fsub round4 known_faces_data faces threshold = inr r ->
  NoDup (map rf_id (recognized r)).
Proof.
  unfold recognize_faces, recognize_faces_body.
  destruct (Nat.eqb (length known_faces_data) 0); [discriminate|].
  destruct (Nat.eqb (length faces) 0); cbn; intros [= <-]; cbn.
  - constructor.
  - apply recognize_loop_inv.
Qed.

(** C10. For a non-empty list of known faces [recognize_faces] answers, and in
    its answer the recognized records and the unrecognized count add up to
    the number of detected faces. *)
Theorem recognize_faces_accounts_for_every_face
    (known_faces_data : list KnownFace) (faces : list (Encoding * Location))
    (threshold : Q) :
  known_faces_data <> [] ->
  exists r,
    recognize_faces face_distance exn_str fsub round4 known_faces_data faces threshold = inr r /\
    (length (recognized r) + unrecognized_count r = total_faces_detected r)%nat /\
    total_faces_detected r = length faces.
Proof.
  intros Hne. unfold recognize_faces, recognize_faces_body.
  destruct known_faces_data as [|k ks]; [congruence|]. cbn [length Nat.eqb].
  destruct (Nat.eqb (length faces) 0) eqn:E; cbn; eexists; split;
    try reflexivity; cbn.
  - apply Nat.eqb_eq in E. split; [reflexivity | congruence].
  - split; [|reflexivity]. apply recognize_loop_inv.
Qed.

(** C1, as the code has it.  Faces are handled in the order given.  The
    candidate of a face is the first reference at minimum distance among all
    the references, claimed or not.  The face is recorded with that reference
    when the distance is within the tolerance and no earlier face was recorded
    with the same identifier; in every other case it is counted as
    unrecognized, with no second choice. *)
Theorem recognize_loop_first_come_no_second_choice
    (known_encodings : list Encoding) (known_info : list KnownInfo) (tol : Q)
    (faces_before : list (Encoding * Location)) (e : Encoding) (loc : Location) :
  known_encodings <> [] ->
  let st := recognize_loop face_distance fsub round4 known_encodings known_info tol faces_before in
  let st' := recognize_loop face_distance fsub round4 known_encodings known_info tol
               (faces_before ++ [(e, loc)]) in
  let dists := map (fun k => face_distance k e) known_encodings in
  let info := nth (argmin dists) known_info known_info_default in
  exists d,
    first_min_at dists (argmin dists) d /\
    (d <= tol /\ (ki_id info ∉ map rf_id (st_recognized st)) ->
       st_recognized st' = st_recognized st ++ [recognized_entry fsub round4 info d loc] /\
       st_unrecognized_count st' = st_unrecognized_count st) /\
    (~ (d <= tol /\ (ki_id info ∉ map rf_id (st_recognized st))) ->
       st_recognized st' = st_recognized st /\
       st_unrecognized_count st' = S (st_unrecognized_count st)).
Proof.
  intros Hne st st' dists info.
  assert (Hd : dists <> []).
  { subst dists. destruct known_encodings; [congruence | discriminate]. }
  destruct (argmin_spec dists Hd) as [d Hmin]. exists d.
  split; [exact Hmin|].
  destruct (first_min_at_nth _ _ _ Hmin) as [Hnth _].
  destruct (recognize_loop_inv known_encodings known_info tol faces_before)
    as (Hids & _ & _). fold st in Hids.
  subst st'. rewrite recognize_loop_snoc. fold st.
  rewrite (recognize_step_nonempty known_encodings known_info tol st e loc Hne).
  fold dists info. rewrite Hnth.
  destruct (Qle_bool d tol) eqn:Ele; cbn [andb].
  - apply Qle_bool_iff in Ele.
    destruct (bool_decide (ki_id info ∈ st_matched_ids st)) eqn:Ein; cbn [negb].
    + apply bool_decide_eq_true in Ein. apply Hids in Ein.
      split; [intros [_ Hn]; contradiction | intros _; cbn; auto].
    + apply bool_decide_eq_false in Ein. rewrite Hids in Ein.
      split; [intros _; cbn; auto | intros Hn; exfalso; apply Hn; auto].
  - apply Qle_bool_false in Ele.
    split; [intros [Hle _]; exfalso; apply (Qlt_not_le _ _ Ele Hle)
           | intros _; cbn; auto].
Qed.

End RecognizeProperties.

(** ** [match_faces] and [process_attendance]: the inner loops *)

Section MlProperties.

Variable face_distance : Encoding -> Encoding -> Q.

Lemma first_min_at_is_minimum (l : list Q) (i : nat) (d : Q) :
  first_min_at l i d -> is_minimum d l.
Proof.
  intros (Hat & Hmin & _). split; [|exact Hmin].
  eapply list_elem_of_lookup_2; eassumption.
Qed.

Lemma is_minimum_unique (l : list Q) (d d' : Q) :
  is_minimum d l -> is_minimum d' l -> d == d'.
Proof.
  intros [Hin Hmin] [Hin' Hmin']. apply Qle_antisym; auto.
Qed.

(** Extending a list by an element that is not smaller keeps the first
    minimum; by a strictly smaller one, moves it to the new element. *)
Lemma first_min_at_snoc_keep (l : list Q) (i : nat) (d x : Q) :
  first_min_at l i d -> d <= x -> first_min_at (l ++ [x]) i d.
Proof.
  intros (Hat & Hmin & Hfirst) Hle. pose proof (lookup_lt_Some _ _ _ Hat).
  repeat split.
  - rewrite lookup_app_l; assumption.
  - intros y Hy. apply elem_of_app in Hy as [Hy|Hy]; [auto|].
    apply list_elem_of_singleton in Hy. subst y. assumption.
  - intros j y Hj Hy. rewrite lookup_app_l in Hy by lia. eauto.
Qed.

Lemma first_min_at_snoc_new (l : list Q) (x : Q) :
  (forall y, y ∈ l -> x < y) -> first_min_at (l ++ [x]) (length l) x.
Proof.
  intros Hlt. repeat split.
  - rewrite lookup_app_r by lia. rewrite Nat.sub_diag. reflexivity.
  - intros y Hy. apply elem_of_app in Hy as [Hy|Hy].
    + apply Qlt_le_weak; auto.
    + apply list_elem_of_singleton in Hy. subst y. apply Qle_refl.
  - intros j y Hj Hy. rewrite lookup_app_l in Hy by lia.
    apply Hlt. eapply list_elem_of_lookup_2; eassumption.
Qed.

Lemma first_min_at_index_unique (l : list Q) (i j : nat) (d d' : Q) :
  first_min_at l i d -> first_min_at l j d' -> i = j.
Proof.
  intros (Hi & Hmin & Hfirst) (Hj & Hmin' & Hfirst').
  destruct (Nat.lt_trichotomy i j) as [Hlt|[Heq|Hgt]]; [|exact Heq|]; exfalso.
  - pose proof (Hfirst' i d Hlt Hi) as H1.
    assert (H2 : d <= d') by (apply Hmin; eapply list_elem_of_lookup_2; eassumption).
    apply (Qlt_not_le _ _ H1 H2).
  - pose proof (Hfirst j d' Hgt Hj) as H1.
    assert (H2 : d' <= d) by (apply Hmin'; eapply list_elem_of_lookup_2; eassumption).
    apply (Qlt_not_le _ _ H1 H2).
Qed.

(** After the inner loop of [match_faces]: either no reference is closer than
    the tolerance and nothing was chosen, or the chosen reference is the first
    one at minimum distance and that distance is below the tolerance. *)
Lemma match_inner_loop_spec (references : list (string * Encoding))
    (e : Encoding) (tol : Q) :
  let st := match_inner_loop face_distance references e tol in
  let dists := reference_distances face_distance references e in
  (st = {| best_match := None; best_distance := PInf |} /\
   forall x, x ∈ dists -> tol <= x) \/
  (exists j student_id enc,
     references !! j = Some (student_id, enc) /\
     st = {| best_match := Some student_id;
             best_distance := Fin (face_distance enc e) |} /\
     face_distance enc e < tol /\
     first_min_at dists j (face_distance enc e)).
Proof.
  induction references as [|[sid enc'] references IH] using rev_ind; cbv zeta.
  - left. split; [reflexivity|]. intros x Hx. inversion Hx.
  - unfold match_inner_loop, reference_distances in *.
    rewrite fold_left_app, map_app. cbn [fold_left map snd].
    set (dists := map (fun ref => face_distance ref.2 e) references) in *.
    set (d' := face_distance enc' e).
    assert (Hlen : length dists = length references)
      by (subst dists; apply length_map).
    cbv zeta in IH.
    destruct IH as [[-> Hall]|(j & student_id & enc & Hj & -> & Hlt & Hmin)];
      unfold match_inner_step; cbn [best_distance lt_xfloat]; fold d'.
    + destruct (Qlt_bool d' tol) eqn:E; cbn [andb].
      * apply Qlt_bool_iff in E. right.
        exists (length references), sid, enc'.
        refine (conj _ (conj eq_refl (conj _ _))).
        -- rewrite lookup_app_r by lia. rewrite Nat.sub_diag. reflexivity.
        -- exact E.
        -- rewrite <- Hlen. apply first_min_at_snoc_new.
           intros y Hy. apply (Qlt_le_trans _ tol); auto.
      * apply Qlt_bool_false in E. left. split; [reflexivity|].
        intros x Hx. apply elem_of_app in Hx as [Hx|Hx]; [auto|].
        apply list_elem_of_singleton in Hx. subst x. exact E.
    + right. destruct (Qlt_bool d' tol && Qlt_bool d' (face_distance enc e)) eqn:E.
      * apply andb_true_iff in E as [E1 E2].
        apply Qlt_bool_iff in E1, E2.
        exists (length references), sid, enc'.
        refine (conj _ (conj eq_refl (conj _ _))).
        -- rewrite lookup_app_r by lia. rewrite Nat.sub_diag. reflexivity.
        -- exact E1.
        -- rewrite <- Hlen. apply first_min_at_snoc_new.
           intros y Hy. apply (Qlt_le_trans _ (face_distance enc e)); [exact E2|].
           destruct Hmin as (_ & Hmin & _). auto.
      * exists j, student_id, enc.
        refine (conj _ (conj eq_refl (conj Hlt (conj _ (conj _ _))))).
        -- rewrite lookup_app_l; [assumption|]. eapply lookup_lt_Some; eassumption.
        -- apply lookup_lt_Some in Hj as Hjlt.
           destruct Hmin as (Hat & Hmin & Hfirst). rewrite lookup_app_l by lia.
           exact Hat.
        -- intros y Hy. destruct Hmin as (Hat & Hmin & Hfirst).
           apply elem_of_app in Hy as [Hy|Hy]; [auto|].
           apply list_elem_of_singleton in Hy. subst y.
           apply andb_false_iff in E as [E|E]; apply Qlt_bool_false in E.
           ++ apply Qlt_le_weak, (Qlt_le_trans _ tol); assumption.
           ++ exact E.
        -- intros i y Hi Hy. destruct Hmin as (Hat & Hmin & Hfirst).
           apply lookup_lt_Some in Hat.
           rewrite lookup_app_l in Hy by lia. eauto.
Qed.

(** After the inner loop of [process_attendance]: either no face of the pool
    is closer than 0.6 to the reference and the state is the initial one, or
    the confidence kept is that of the first face at minimum distance, and
    that distance is below 0.6. *)
Lemma attendance_inner_loop_spec (reference_encoding : Encoding)
    (pool : list Encoding) :
  let st := attendance_inner_loop face_distance reference_encoding pool in
  let dists := pool_distances face_distance reference_encoding pool in
  (st = (false, 0) /\ forall x, x ∈ dists -> 6 # 10 <= x) \/
  (exists j e,
     pool !! j = Some e /\
     st = (true, 1 - face_distance reference_encoding e) /\
     face_distance reference_encoding e < 6 # 10 /\
     first_min_at dists j (face_distance reference_encoding e)).
Proof.
  induction pool as [|e' pool IH] using rev_ind; cbv zeta.
  - left. split; [reflexivity|]. intros x Hx. inversion Hx.
  - unfold attendance_inner_loop, pool_distances in *.
    rewrite fold_left_app, map_app. cbn [fold_left map].
    set (dists := map (fun e => face_distance reference_encoding e) pool) in *.
    set (d' := face_distance reference_encoding e').
    assert (Hlen : length dists = length pool)
      by (subst dists; apply length_map).
    cbv zeta in IH.
    destruct IH as [[-> Hall]|(j & e & Hj & -> & Hlt & Hmin)];
      unfold attendance_inner_step; cbn [snd]; fold d'.
    + destruct (Qlt_bool d' (6 # 10)) eqn:E; cbn [andb].
      * apply Qlt_bool_iff in E.
        replace (Qlt_bool 0 (1 - d')) with true
          by (symmetry; apply Qlt_bool_iff; clearbody d'; lra).
        right. exists (length pool), e'.
        refine (conj _ (conj eq_refl (conj E _))).
        -- rewrite lookup_app_r by lia. rewrite Nat.sub_diag. reflexivity.
        -- rewrite <- Hlen. apply first_min_at_snoc_new.
           intros y Hy. apply (Qlt_le_trans _ (6 # 10)); auto.
      * apply Qlt_bool_false in E. left. split; [reflexivity|].
        intros x Hx. apply elem_of_app in Hx as [Hx|Hx]; [auto|].
        apply list_elem_of_singleton in Hx. subst x. exact E.
    + right. set (d := face_distance reference_encoding e) in *.
      destruct (Qlt_bool d' (6 # 10) && Qlt_bool (1 - d) (1 - d')) eqn:E.
      * apply andb_true_iff in E as [E1 E2].
        apply Qlt_bool_iff in E1, E2.
        exists (length pool), e'.
        refine (conj _ (conj eq_refl (conj E1 _))).
        -- rewrite lookup_app_r by lia. rewrite Nat.sub_diag. reflexivity.
        -- rewrite <- Hlen. apply first_min_at_snoc_new.
           intros y Hy. destruct Hmin as (_ & Hmin & _).
           specialize (Hmin y Hy). change (d' < y). clearbody d d'. lra.
      * exists j, e.
        refine (conj _ (conj eq_refl (conj Hlt _))).
        -- rewrite lookup_app_l; [assumption|]. eapply lookup_lt_Some; eassumption.
        -- apply first_min_at_snoc_keep; [exact Hmin|].
           change (d <= d'). clearbody d d'.
           apply andb_false_iff in E as [E|E]; apply Qlt_bool_false in E; lra.
Qed.


Lemma attendance_loop_snoc (pool : list Encoding) (students : list Student)
    (student : Student) :
  attendance_loop face_distance pool (students ++ [student]) =
  attendance_step face_distance pool
    (attendance_loop face_distance pool students) student.
Proof. unfold attendance_loop. rewrite fold_left_app. reflexivity. Qed.

(** The loop over the students, student by student: what holds of the record
    that a turn appends holds of the record at the position of the student. *)
Lemma attendance_loop_pointwise (pool : list Encoding)
    (P : Student -> AttendanceResult -> Prop) :
  (forall st s, exists a,
     as_results (attendance_step face_distance pool st s) = as_results st ++ [a] /\
     P s a) ->
  forall students,
    Forall2 P students (as_results (attendance_loop face_distance pool students)).
Proof.
  intros Hstep students.
  induction students as [|s students IH] using rev_ind.
  - constructor.
  - rewrite attendance_loop_snoc.
    destruct (Hstep (attendance_loop face_distance pool students) s)
      as (a & -> & Ha).
    apply Forall2_app; [exact IH|]. constructor; [exact Ha | constructor].
Qed.


Lemma str_truthy_iff (s : string) : str_truthy s = true <-> s <> "".
Proof. destruct s; cbn; split; congruence. Qed.

(** What [match_faces] appends for one detected face: nothing when no
    reference is closer than the tolerance or when the chosen identifier is
    the empty string; otherwise one record, for the first reference at minimum
    distance. *)
Lemma match_one_spec (references : list (string * Encoding)) (tol : Q)
    (i : nat) (e : Encoding) :
  let dists := reference_distances face_distance references e in
  (match_one face_distance references tol i e = [] /\
   ((forall x, x ∈ dists -> tol <= x) \/
    exists j enc, references !! j = Some ("", enc) /\
                  face_distance enc e < tol /\
                  first_min_at dists j (face_distance enc e))) \/
  (exists j student_id enc,
     references !! j = Some (student_id, enc) /\
     student_id <> "" /\
     face_distance enc e < tol /\
     first_min_at dists j (face_distance enc e) /\
     match_one face_distance references tol i e =
       [ {| faceId := i;
            studentId := student_id;
            confidence := Fin (1 - face_distance enc e);
            distance := Fin (face_distance enc e) |} ]).
Proof.
  cbv zeta. unfold match_one.
  destruct (match_inner_loop_spec references e tol)
    as [[-> Hall]|(j & student_id & enc & Hj & -> & Hlt & Hmin)];
    cbn [best_match best_distance one_minus].
  - left. auto.
  - destruct (str_truthy student_id) eqn:E.
    + apply str_truthy_iff in E. right. exists j, student_id, enc. auto.
    + left. split; [reflexivity|]. right. exists j, enc.
      destruct student_id; [auto | discriminate].
Qed.

(** Every record of [matches] comes from [match_one] at the index of its
    face. *)
Lemma match_loop_elem (references : list (string * Encoding)) (tol : Q)
    (detected : list Encoding) (i : nat) (m : Match) :
  m ∈ match_loop face_distance references tol i detected ->
  exists k e, detected !! k = Some e /\
              m ∈ match_one face_distance references tol (i + k) e.
Proof.
  revert i. induction detected as [|e detected IH]; intros i Hm; cbn in Hm.
  - inversion Hm.
  - apply elem_of_app in Hm as [Hm|Hm].
    + exists 0%nat, e. rewrite Nat.add_0_r. auto.
    + destruct (IH _ Hm) as (k & e' & Hk & Hin).
      exists (S k), e'. rewrite Nat.add_succ_r. auto.
Qed.

End MlProperties.

(** ** The cut-off and the ties, in the three loops *)

Section MatchDecision.

Variable face_distance : Encoding -> Encoding -> Q.
Variable fsub : Q -> Q -> Q.

Lemma is_minimum_nonempty (d : Q) (l : list Q) : is_minimum d l -> l <> [].
Proof. intros [Hin _] ->. inversion Hin. Qed.

Lemma is_minimum_b_sound (d : Q) (l : list Q) :
  is_minimum_b d l = true -> is_minimum d l.
Proof.
  unfold is_minimum_b. intros H. apply andb_true_iff in H as [Hex Hall]. split.
  - apply existsb_exists in Hex as (x & Hin & Hx).
    apply andb_true_iff in Hx as [Hn Hd].
    apply Z.eqb_eq in Hn. apply Pos.eqb_eq in Hd.
    destruct x as [xn xd], d as [dn dd]. cbn in Hn, Hd. subst.
    apply list_elem_of_In, Hin.
  - intros x Hx. apply Qle_bool_iff.
    rewrite forallb_forall in Hall. apply Hall, list_elem_of_In, Hx.
Qed.

Lemma compare_faces_first_min (known_encodings : list Encoding)
    (e : Encoding) (tol : Q) :
  known_encodings <> [] ->
  let dists := map (fun k => face_distance k e) known_encodings in
  exists d,
    first_min_at dists (argmin dists) d /\
    compare_faces face_distance fsub known_encodings e tol =
      ((if Qle_bool d tol then Z.of_nat (argmin dists) else (-1)%Z), fsub 1 d).
Proof.
  intros Hne dists.
  assert (Hd : dists <> []).
  { subst dists. destruct known_encodings; [congruence | discriminate]. }
  destruct (argmin_spec dists Hd) as [d Hmin]. exists d.
  split; [exact Hmin|].
  rewrite (compare_faces_nonempty face_distance fsub _ e tol Hne). fold dists.
  destruct (first_min_at_nth _ _ _ Hmin) as [-> _]. reflexivity.
Qed.

Lemma first_min_at_argmin (l : list Q) :
  l <> [] -> first_min_at l (argmin l) (nth (argmin l) l 0).
Proof.
  intros Hne. destruct (argmin_spec l Hne) as [d Hmin].
  destruct (first_min_at_nth _ _ _ Hmin) as [-> _]. exact Hmin.
Qed.

(** C9. In each of the three loops the candidate selected is the first one,
    in the order of the input, at minimum distance.  When [j] is the first
    position of the minimum of the distances, [compare_faces] decides on the
    index [j].  When the reference at position [k] of the [references] object
    is the first at minimum distance and that distance is below the
    tolerance, [match_faces] selects it and, its identifier not being empty,
    records it.  When the face at position [l] of the pool is the first at
    minimum distance from a student's reference and that distance is below
    0.6, [process_attendance] keeps the confidence of that face. *)
Theorem first_candidate_at_minimum_is_selected
    (known_encodings : list Encoding) (e : Encoding) (tol : Q) (j : nat) (d : Q)
    (references : list (string * Encoding)) (tolerance : Q) (i k : nat)
    (student_id : string) (enc : Encoding)
    (reference_encoding : Encoding) (pool : list Encoding) (l : nat)
    (e' : Encoding) :
  first_min_at (map (fun k => face_distance k e) known_encodings) j d ->
  references !! k = Some (student_id, enc) ->
  first_min_at (reference_distances face_distance references e) k
    (face_distance enc e) ->
  face_distance enc e < tolerance ->
  pool !! l = Some e' ->
  first_min_at (pool_distances face_distance reference_encoding pool) l
    (face_distance reference_encoding e') ->
  face_distance reference_encoding e' < 6 # 10 ->
  compare_faces face_distance fsub known_encodings e tol =
    ((if Qle_bool d tol then Z.of_nat j else (-1)%Z), fsub 1 d) /\
  match_inner_loop face_distance references e tolerance =
    {| best_match := Some student_id;
       best_distance := Fin (face_distance enc e) |} /\
  (student_id <> "" ->
   match_one face_distance references tolerance i e =
     [ {| faceId := i;
          studentId := student_id;
          confidence := Fin (1 - face_distance enc e);
          distance := Fin (face_distance enc e) |} ]) /\
  attendance_inner_loop face_distance reference_encoding pool =
    (true, 1 - face_distance reference_encoding e').
Proof.
  intros Hj Hk Hkmin Hklt Hl Hlmin Hllt.
  assert (Hloop : match_inner_loop face_distance references e tolerance =
                  {| best_match := Some student_id;
                     best_distance := Fin (face_distance enc e) |}).
  { destruct (match_inner_loop_spec face_distance references e tolerance)
      as [[_ Hall]|(k' & student_id' & enc' & Hk' & -> & _ & Hmin')].
    - exfalso. destruct Hkmin as (Hat & _).
      apply list_elem_of_lookup_2 in Hat. specialize (Hall _ Hat).
      apply (Qlt_not_le _ _ Hklt Hall).
    - pose proof (first_min_at_index_unique _ _ _ _ _ Hmin' Hkmin) as ->.
      rewrite Hk in Hk'. injection Hk' as <- <-. reflexivity. }
  split; [|split; [exact Hloop|split]].
  - assert (Hne : known_encodings <> []).
    { destruct Hj as (Hat & _). intros ->. destruct j; discriminate. }
    destruct (compare_faces_first_min known_encodings e tol Hne)
      as (d0 & Hmin & ->).
    pose proof (first_min_at_index_unique _ _ _ _ _ Hmin Hj) as Hidx.
    destruct Hmin as (Hat0 & _). destruct Hj as (Hat & _).
    rewrite Hidx in *. rewrite Hat in Hat0. injection Hat0 as <-. reflexivity.
  - intros Hid. unfold match_one. rewrite Hloop.
    cbn [best_match best_distance one_minus].
    apply str_truthy_iff in Hid. rewrite Hid. reflexivity.
  - destruct (attendance_inner_loop_spec face_distance reference_encoding pool)
      as [[_ Hall]|(l' & e'' & Hl' & -> & _ & Hmin')].
    + exfalso. destruct Hlmin as (Hat & _).
      apply list_elem_of_lookup_2 in Hat. specialize (Hall _ Hat).
      apply (Qlt_not_le _ _ Hllt Hall).
    + pose proof (first_min_at_index_unique _ _ _ _ _ Hmin' Hlmin) as ->.
      rewrite Hl in Hl'. injection Hl' as <-. reflexivity.
Qed.

Lemma compare_faces_cutoff (known_encodings : list Encoding) (e : Encoding)
    (tol d : Q) :
  is_minimum d (map (fun k => face_distance k e) known_encodings) ->
  (0 <= fst (compare_faces face_distance fsub known_encodings e tol))%Z <-> d <= tol.
Proof.
  intros Hd.
  assert (Hne : known_encodings <> []).
  { apply is_minimum_nonempty in Hd. intros ->. apply Hd. reflexivity. }
  destruct (compare_faces_first_min known_encodings e tol Hne)
    as (d' & Hmin & ->). cbn [fst].
  pose proof (is_minimum_unique _ _ _ (first_min_at_is_minimum _ _ _ Hmin) Hd)
    as Heq.
  destruct (Qle_bool d' tol) eqn:E.
  - apply Qle_bool_iff in E. split; [intros _; lra | intros _; lia].
  - apply Qle_bool_false in E. split; [lia | lra].
Qed.

Lemma match_one_cutoff (references : list (string * Encoding)) (e : Encoding)
    (tolerance : Q) (i : nat) (d : Q) :
  is_minimum d (reference_distances face_distance references e) ->
  (forall ref, ref ∈ references -> fst ref <> "") ->
  match_one face_distance references tolerance i e <> [] <-> d < tolerance.
Proof.
  intros Hd Hids.
  destruct (match_one_spec face_distance references tolerance i e)
    as [[-> [Hall|(j & enc & Hj & _)]]
       |(j & student_id & enc & Hj & _ & Hlt & Hmin & ->)].
  - destruct Hd as [Hin _]. specialize (Hall _ Hin).
    split; [congruence | lra].
  - exfalso. apply (Hids ("", enc)); [|reflexivity].
    eapply list_elem_of_lookup_2; eassumption.
  - pose proof (is_minimum_unique _ _ _ (first_min_at_is_minimum _ _ _ Hmin) Hd)
      as Heq.
    split; [intros _; lra | intros _; discriminate].
Qed.

Lemma attendance_inner_loop_cutoff (reference_encoding : Encoding)
    (pool : list Encoding) (d : Q) :
  is_minimum d (pool_distances face_distance reference_encoding pool) ->
  fst (attendance_inner_loop face_distance reference_encoding pool) = true <->
  d < 6 # 10.
Proof.
  intros Hd.
  destruct (attendance_inner_loop_spec face_distance reference_encoding pool)
    as [[-> Hall]|(j & e' & Hj & -> & Hlt & Hmin)]; cbn [fst].
  - destruct Hd as [Hin _]. specialize (Hall _ Hin).
    split; [discriminate | lra].
  - pose proof (is_minimum_unique _ _ _ (first_min_at_is_minimum _ _ _ Hmin) Hd)
      as Heq.
    split; [intros _; lra | reflexivity].
Qed.

(** C2, as the code has it.  [compare_faces] reports a match exactly when the
    minimum distance is at most the tolerance, equality included.
    [match_faces] records a match exactly when the minimum distance is
    strictly below the tolerance (for identifiers that are not empty), and
    [process_attendance] finds a student exactly when the minimum distance is
    strictly below the constant 0.6. *)
Theorem match_decision_cutoff
    (known_encodings : list Encoding) (e : Encoding) (tol : Q)
    (references : list (string * Encoding)) (tolerance : Q) (i : nat)
    (reference_encoding : Encoding) (pool : list Encoding) (d1 d2 d3 : Q) :
  is_minimum d1 (map (fun k => face_distance k e) known_encodings) ->
  is_minimum d2 (reference_distances face_distance references e) ->
  (forall ref, ref ∈ references -> fst ref <> "") ->
  is_minimum d3 (pool_distances face_distance reference_encoding pool) ->
  ((0 <= fst (compare_faces face_distance fsub known_encodings e tol))%Z <-> d1 <= tol) /\
  (match_one face_distance references tolerance i e <> [] <-> d2 < tolerance) /\
  (fst (attendance_inner_loop face_distance reference_encoding pool) = true <->
   d3 < 6 # 10).
Proof.
  intros Hd1 Hd2 Hids Hd3. split; [|split].
  - apply compare_faces_cutoff, Hd1.
  - apply match_one_cutoff; assumption.
  - apply attendance_inner_loop_cutoff, Hd3.
Qed.

End MatchDecision.

(** ** The endpoints *)

Section Endpoints.

Variable face_distance : Encoding -> Encoding -> Q.
Variable exn_str : exn -> string.
Variable fsub : Q -> Q -> Q.
Variable round4 : Q -> Q.

Lemma match_loop_no_references (tol : Q) (detected : list Encoding) (i : nat) :
  match_loop face_distance [] tol i detected = [].
Proof.
  revert i. induction detected as [|e detected IH]; intros i; cbn.
  - reflexivity.
  - apply IH.
Qed.

(** Every record of the loop of [recognize_faces] belongs to a face of the
    photo and a known face within the tolerance of it. *)
Lemma recognize_loop_records (known : list KnownFace) (tol : Q)
    (faces : list (Encoding * Location)) (x : RecognizedFace) :
  known <> [] ->
  x ∈ st_recognized (recognize_loop face_distance fsub round4 (map kf_encoding known)
                       (map known_info_of known) tol faces) ->
  exists k e loc,
    k ∈ known /\ (e, loc) ∈ faces /\
    face_distance (kf_encoding k) e <= tol /\
    x = recognized_entry fsub round4 (known_info_of k) (face_distance (kf_encoding k) e) loc.
Proof.
  intros Hne.
  assert (Hne' : map kf_encoding known <> [])
    by (destruct known; [congruence | discriminate]).
  induction faces as [|[e loc] faces IH] using rev_ind; intros Hx.
  - cbn in Hx. inversion Hx.
  - rewrite recognize_loop_snoc in Hx.
    rewrite (recognize_step_nonempty face_distance fsub round4 _ _ tol _ e loc Hne') in Hx.
    set (dists := map (fun k => face_distance k e) (map kf_encoding known)) in *.
    assert (Hd : dists <> [])
      by (subst dists; destruct known; [congruence | discriminate]).
    destruct (argmin_spec dists Hd) as [d Hmin].
    destruct (first_min_at_nth _ _ _ Hmin) as [Hnth _]. rewrite Hnth in Hx.
    destruct Hmin as (Hat & _). subst dists.
    rewrite !list_lookup_fmap in Hat.
    destruct (known !! argmin _) as [k|] eqn:Hk; [|discriminate].
    cbn in Hat. injection Hat as <-.
    assert (Hinfo : nth (argmin (map (fun k => face_distance k e)
                                   (map kf_encoding known)))
                      (map known_info_of known) known_info_default
                    = known_info_of k).
    { apply nth_lookup_Some with (d := known_info_default).
      rewrite list_lookup_fmap, Hk. reflexivity. }
    rewrite Hinfo in Hx.
    destruct (Qle_bool _ tol && _) eqn:E; cbn [st_recognized] in Hx.
    + apply elem_of_app in Hx as [Hx|Hx].
      * destruct (IH Hx) as (k' & e' & loc' & Hk' & Hf & Hle & ->).
        exists k', e', loc'. rewrite elem_of_app. auto.
      * apply list_elem_of_singleton in Hx. subst x.
        apply andb_true_iff in E as [E _]. apply Qle_bool_iff in E.
        exists k, e, loc. rewrite elem_of_app, list_elem_of_singleton.
        repeat split; auto.
        eapply list_elem_of_lookup_2; eassumption.
    + destruct (IH Hx) as (k' & e' & loc' & Hk' & Hf & Hle & ->).
      exists k', e', loc'. rewrite elem_of_app. auto.
Qed.

Lemma recognize_faces_nonempty (known : list KnownFace)
    (faces : list (Encoding * Location)) (threshold : Q) :
  known <> [] -> faces <> [] ->
  let st := recognize_loop face_distance fsub round4 (map kf_encoding known)
              (map known_info_of known) (fsub 1 threshold) faces in
  recognize_faces face_distance exn_str fsub round4 known faces threshold =
    inr {| success := true;
           message := "Recognized " +:+ pretty (length (st_recognized st))
                      +:+ " out of " +:+ pretty (length faces) +:+ " faces";
           total_faces_detected := length faces;
           recognized := st_recognized st;
           unrecognized_count := st_unrecognized_count st |}.
Proof.
  intros Hk Hf. unfold recognize_faces, recognize_faces_body.
  destruct known; [congruence|]. destruct faces; [congruence|]. reflexivity.
Qed.

Lemma recognize_faces_no_faces (known : list KnownFace) (threshold : Q) :
  known <> [] ->
  recognize_faces face_distance exn_str fsub round4 known [] threshold =
    inr {| success := true;
           message := "No faces detected in the image";
           total_faces_detected := 0;
           recognized := [];
           unrecognized_count := 0 |}.
Proof.
  intros Hk. unfold recognize_faces, recognize_faces_body.
  destruct known; [congruence|]. reflexivity.
Qed.

(** The known face that is the candidate of a face: the first one at minimum
    distance. *)
Lemma candidate_of_face (known : list KnownFace) (e : Encoding) :
  known <> [] ->
  let dists := map (fun k => face_distance k e) (map kf_encoding known) in
  exists k,
    known !! argmin (map (fun k => face_distance (kf_encoding k) e) known) = Some k /\
    argmin dists = argmin (map (fun k => face_distance (kf_encoding k) e) known) /\
    nth (argmin dists) dists 0 = face_distance (kf_encoding k) e /\
    nth (argmin dists) (map known_info_of known) known_info_default =
      known_info_of k.
Proof.
  intros Hne dists.
  assert (Hdists : dists = map (fun k => face_distance (kf_encoding k) e) known)
    by (subst dists; rewrite map_map; reflexivity).
  assert (Hd : dists <> [])
    by (rewrite Hdists; destruct known; [congruence | discriminate]).
  destruct (argmin_spec dists Hd) as [d Hmin].
  destruct (first_min_at_nth _ _ _ Hmin) as [Hnth _].
  destruct Hmin as (Hat & _).
  rewrite Hdists, list_lookup_fmap in Hat. rewrite <- Hdists in Hat.
  destruct (known !! argmin dists) as [k|] eqn:Hk; [|discriminate].
  cbn in Hat. injection Hat as Hat.
  exists k. rewrite <- Hdists.
  refine (conj Hk (conj eq_refl (conj _ _))).
  - rewrite Hnth. symmetry. exact Hat.
  - apply nth_lookup_Some with (d := known_info_default).
    rewrite list_lookup_fmap, Hk. reflexivity.
Qed.

(** The identifiers claimed by the loop are those of the candidates of the
    faces seen that lie within the tolerance. *)
Lemma recognize_loop_claimed (known : list KnownFace) (tol : Q)
    (faces : list (Encoding * Location)) (id : string) :
  known <> [] ->
  id ∈ st_matched_ids (recognize_loop face_distance fsub round4 (map kf_encoding known)
                         (map known_info_of known) tol faces) <->
  exists e loc k,
    (e, loc) ∈ faces /\
    known !! argmin (map (fun k => face_distance (kf_encoding k) e) known) = Some k /\
    face_distance (kf_encoding k) e <= tol /\
    kf_id k = id.
Proof.
  intros Hne.
  assert (Hne' : map kf_encoding known <> [])
    by (destruct known; [congruence | discriminate]).
  induction faces as [|[e loc] faces IH] using rev_ind.
  - cbn. split; [set_solver|]. intros (e & loc & k & Hin & _). inversion Hin.
  - rewrite recognize_loop_snoc.
    rewrite (recognize_step_nonempty face_distance fsub round4 _ _ tol _ e loc Hne').
    destruct (candidate_of_face known e Hne) as (k & Hk & _ & Hd & Hinfo).
    cbv zeta in Hd, Hinfo. rewrite Hd, Hinfo. cbn [ki_id known_info_of].
    set (st := recognize_loop face_distance fsub round4 (map kf_encoding known)
                 (map known_info_of known) tol faces) in *.
    destruct (Qle_bool (face_distance (kf_encoding k) e) tol) eqn:Ele;
      cbn [andb].
    + apply Qle_bool_iff in Ele.
      assert (Hnew : forall id', kf_id k = id' ->
                exists e' loc' k',
                  (e', loc') ∈ faces ++ [(e, loc)] /\
                  known !! argmin (map (fun k => face_distance (kf_encoding k) e')
                                     known) = Some k' /\
                  face_distance (kf_encoding k') e' <= tol /\ kf_id k' = id').
      { intros id' <-. exists e, loc, k. rewrite elem_of_app, list_elem_of_singleton.
        auto. }
      assert (Hold : (exists e' loc' k',
                  (e', loc') ∈ faces ++ [(e, loc)] /\
                  known !! argmin (map (fun k => face_distance (kf_encoding k) e')
                                     known) = Some k' /\
                  face_distance (kf_encoding k') e' <= tol /\ kf_id k' = id) ->
                id ∈ st_matched_ids st \/ kf_id k = id).
      { intros (e' & loc' & k' & Hin & Hk' & Hle & Hid).
        apply elem_of_app in Hin as [Hin|Hin].
        - left. apply IH. exists e', loc', k'. auto.
        - apply list_elem_of_singleton in Hin. injection Hin as -> ->.
          right. congruence. }
      assert (Hkeep : id ∈ st_matched_ids st ->
                exists e' loc' k',
                  (e', loc') ∈ faces ++ [(e, loc)] /\
                  known !! argmin (map (fun k => face_distance (kf_encoding k) e')
                                     known) = Some k' /\
                  face_distance (kf_encoding k') e' <= tol /\ kf_id k' = id).
      { intros Hid. apply IH in Hid as (e' & loc' & k' & Hin & Hrest).
        exists e', loc', k'. rewrite elem_of_app. auto. }
      destruct (bool_decide (kf_id k ∈ st_matched_ids st)) eqn:Ein; cbn [negb].
      * apply bool_decide_eq_true in Ein. cbn [st_matched_ids].
        split; [exact Hkeep|]. intros H. apply Hold in H as [H|H]; congruence.
      * cbn [st_matched_ids]. rewrite elem_of_union, elem_of_singleton.
        split.
        -- intros [H|H]; [auto | apply Hnew; congruence].
        -- intros H. apply Hold in H as [H|H]; auto.
    + apply Qle_bool_false in Ele. cbn [st_matched_ids]. rewrite IH. split.
      * intros (e' & loc' & k' & Hin & Hrest). exists e', loc', k'.
        rewrite elem_of_app. auto.
      * intros (e' & loc' & k' & Hin & Hk' & Hle & Hid).
        apply elem_of_app in Hin as [Hin|Hin].
        -- exists e', loc', k'. auto.
        -- apply list_elem_of_singleton in Hin. injection Hin as -> ->.
           exfalso. rewrite Hk in Hk'. injection Hk' as <-.
           apply (Qlt_not_le _ _ Ele Hle).
Qed.

Lemma recognize_faces_recognized (known : list KnownFace)
    (faces : list (Encoding * Location)) (threshold : Q)
    (r : RecognitionResponse) :
  recognize_faces face_distance exn_str fsub round4 known faces threshold = inr r ->
  known <> [] /\
  recognized r =
    st_recognized (recognize_loop face_distance fsub round4 (map kf_encoding known)
                     (map known_info_of known) (fsub 1 threshold) faces).
Proof.
  intros Hr. destruct known as [|k0 known]; [discriminate|].
  split; [discriminate|].
  destruct faces as [|f0 faces].
  - cbn in Hr. injection Hr as <-. reflexivity.
  - rewrite recognize_faces_nonempty in Hr by discriminate.
    injection Hr as <-. reflexivity.
Qed.

(** C8. With no detected face the matching succeeds with an empty list:
    [recognize_faces] for a photo without faces (and known faces given),
    [match_faces] for an empty [detected] list, and [process_attendance] when
    the photos yield no face. *)
Theorem empty_detection_set_is_success
    (known : list KnownFace) (threshold : Q)
    (references : list (string * Encoding)) (tol : option Q)
    (photos : list (option (list Encoding))) (students : list Student) :
  known <> [] ->
  photos <> [] ->
  collect_detected_faces photos = [] ->
  recognize_faces face_distance exn_str fsub round4 known [] threshold =
    inr {| success := true;
           message := "No faces detected in the image";
           total_faces_detected := 0;
           recognized := [];
           unrecognized_count := 0 |} /\
  match_faces face_distance
    (Some {| req_detected := Some [];
             req_references := Some references;
             req_tolerance := tol |}) =
    inr {| m_success := true;
           matches := [];
           m_totalDetected := 0;
           m_totalMatched := 0 |} /\
  process_attendance face_distance photos (Some students) =
    inr {| a_success := true;
           a_message := Some "No faces detected in photos";
           results := [];
           totalStudents := None;
           totalDetected := None;
           totalMatched := None |}.
Proof.
  intros Hk Hp Hpool. split; [|split].
  - apply recognize_faces_no_faces, Hk.
  - reflexivity.
  - unfold process_attendance. destruct photos; [congruence|].
    cbn [length Nat.eqb]. rewrite Hpool. reflexivity.
Qed.

(** C6, as the code has it.  With an empty pool of references [match_faces]
    and [process_attendance] succeed, with no match and no result;
    [recognize_faces] does not succeed: it raises. *)
Theorem empty_references_outcome
    (detected : list Encoding) (tol : option Q)
    (photos : list (option (list Encoding)))
    (faces : list (Encoding * Location)) (threshold : Q) :
  photos <> [] ->
  match_faces face_distance
    (Some {| req_detected := Some detected;
             req_references := Some [];
             req_tolerance := tol |}) =
    inr {| m_success := true;
           matches := [];
           m_totalDetected := length detected;
           m_totalMatched := 0 |} /\
  (exists resp,
     process_attendance face_distance photos (Some []) = inr resp /\
     a_success resp = true /\ results resp = []) /\
  (exists e, recognize_faces face_distance exn_str fsub round4 [] faces threshold = inl e).
Proof.
  intros Hp. split; [|split].
  - unfold match_faces. rewrite match_loop_no_references. reflexivity.
  - unfold process_attendance. destruct photos; [congruence|].
    cbn [length Nat.eqb].
    destruct (Nat.eqb (length (collect_detected_faces _)) 0);
      eexists; repeat split.
  - eexists. reflexivity.
Qed.



Lemma match_loop_intro (references : list (string * Encoding)) (tol : Q)
    (detected : list Encoding) (i k : nat) (e : Encoding) (x : Match) :
  detected !! k = Some e ->
  x ∈ match_one face_distance references tol (i + k) e ->
  x ∈ match_loop face_distance references tol i detected.
Proof.
  revert i k. induction detected as [|e0 detected IH]; intros i k Hk Hx.
  - destruct k; discriminate.
  - cbn [match_loop]. apply elem_of_app. destruct k as [|k]; cbn in Hk.
    + injection Hk as ->. rewrite Nat.add_0_r in Hx. left. exact Hx.
    + right. apply (IH (S i) k Hk). rewrite Nat.add_succ_r in Hx. exact Hx.
Qed.

Lemma attendance_step_absent (pool : list Encoding) (st : AttendanceState)
    (s : Student) :
  exists a,
    as_results (attendance_step face_distance pool st s) = as_results st ++ [a] /\
    absent_with_zero face_distance pool s a.
Proof.
  unfold attendance_step, absent_with_zero, not_found.
  destruct (no_faceEncoding s) eqn:Eno.
  - eexists. split; [reflexivity|]. cbn. auto.
  - destruct (attendance_inner_loop_spec face_distance
                (default [] (s_faceEncoding s)) pool)
      as [[-> _]|(j & e & Hj & -> & Hlt & _)];
      eexists; (split; [reflexivity|]); cbn; (split; [reflexivity|]).
    + auto.
    + intros [Hno|Hfar]; [discriminate|]. exfalso.
      apply list_elem_of_lookup_2 in Hj. specialize (Hfar _ Hj).
      apply (Qlt_not_le _ _ Hlt Hfar).
Qed.

(** C7, as the code has it.  The Matcher makes a record for a matched pair
    only.  Every record of [recognize_faces] belongs to a face and a known
    face within the tolerance and carries the rounded confidence of that
    pair; an identity is recorded exactly when it is the candidate of some
    face and within the tolerance of it; and the faces without a record are
    only counted.  [match_faces]
    has a record for a face exactly when some reference is closer to it than
    the tolerance (the identifiers not being empty), and the record carries
    the distance and the confidence of its pair.  [process_attendance], when
    a face was detected, gives every student one record, and the record of a
    student who is not found says [ABSENT] with the confidence 0, whatever
    the distances to the pooled faces. *)
Theorem records_are_for_matches_absent_confidence_zero
    (known : list KnownFace) (faces : list (Encoding * Location)) (threshold : Q)
    (r : RecognitionResponse)
    (detected : list Encoding) (references : list (string * Encoding))
    (tol : option Q)
    (photos : list (option (list Encoding))) (students : list Student)
    (resp : AttendanceResponse) :
  recognize_faces face_distance exn_str fsub round4 known faces threshold = inr r ->
  (forall ref, ref ∈ references -> fst ref <> "") ->
  process_attendance face_distance photos (Some students) = inr resp ->
  collect_detected_faces photos <> [] ->
  ((forall x, x ∈ recognized r ->
      exists k e loc,
        k ∈ known /\ (e, loc) ∈ faces /\
        face_distance (kf_encoding k) e <= fsub 1 threshold /\
        x = recognized_entry fsub round4 (known_info_of k)
              (face_distance (kf_encoding k) e) loc) /\
   (forall id, id ∈ map rf_id (recognized r) <->
      exists e loc k,
        (e, loc) ∈ faces /\
        known !! argmin (map (fun k => face_distance (kf_encoding k) e) known)
          = Some k /\
        face_distance (kf_encoding k) e <= fsub 1 threshold /\
        kf_id k = id) /\
   (length (recognized r) + unrecognized_count r = length faces)%nat) /\
  (exists m,
     match_faces face_distance (match_request detected references tol) = inr m /\
     (forall x, x ∈ matches m ->
        exists student_id enc e,
          (student_id, enc) ∈ references /\
          detected !! faceId x = Some e /\
          face_distance enc e < default (6 # 10) tol /\
          x = {| faceId := faceId x;
                 studentId := student_id;
                 confidence := Fin (1 - face_distance enc e);
                 distance := Fin (face_distance enc e) |}) /\
     (forall i e, detected !! i = Some e ->
        (exists x, x ∈ matches m /\ faceId x = i) <->
        (exists ref, ref ∈ references /\
                     face_distance (snd ref) e < default (6 # 10) tol))) /\
  Forall2 (absent_with_zero face_distance (collect_detected_faces photos))
    students (results resp).
Proof.
  intros Hr Hids Hresp Hpool. split; [|split].
  - assert (Hids' : forall id, id ∈ map rf_id (recognized r) <->
              exists e loc k,
                (e, loc) ∈ faces /\
                known !! argmin (map (fun k => face_distance (kf_encoding k) e)
                                   known) = Some k /\
                face_distance (kf_encoding k) e <= fsub 1 threshold /\
                kf_id k = id).
    { intros id. destruct (recognize_faces_recognized _ _ _ _ Hr) as [Hne ->].
      rewrite <- (recognize_loop_claimed known (fsub 1 threshold) faces id Hne).
      symmetry. apply recognize_loop_inv. }
    destruct known as [|k0 known]; [discriminate|].
    destruct faces as [|f0 faces].
    + cbn in Hr. injection Hr as <-. split; [|split; [exact Hids'|reflexivity]].
      intros x Hx. inversion Hx.
    + rewrite recognize_faces_nonempty in Hr by discriminate.
      injection Hr as <-. split; [|split; [exact Hids'|]].
      * intros x Hx. cbn [recognized] in Hx.
        apply (recognize_loop_records (k0 :: known)) in Hx;
          [exact Hx | discriminate].
      * cbn [recognized unrecognized_count]. apply recognize_loop_inv.
  - eexists. split; [reflexivity|]. cbn [matches].
    set (t := match tol with Some t => t | None => 6 # 10 end).
    assert (Ht : default (6 # 10) tol = t) by (destruct tol; reflexivity).
    rewrite !Ht. split.
    + intros x Hx.
      apply match_loop_elem in Hx as (k & e & Hk & Hx). cbn [Nat.add] in Hx.
      destruct (match_one_spec face_distance references t k e)
        as [[Hnil _]|(j & student_id & enc & Hj & _ & Hlt & _ & Hone)].
      * rewrite Hnil in Hx. inversion Hx.
      * rewrite Hone in Hx. apply list_elem_of_singleton in Hx. subst x.
        exists student_id, enc, e. cbn [faceId].
        refine (conj _ (conj Hk (conj Hlt eq_refl))).
        eapply list_elem_of_lookup_2; eassumption.
    + intros i e Hi. split.
      * intros (x & Hx & Hid).
        apply match_loop_elem in Hx as (k & e' & Hk & Hx). cbn [Nat.add] in Hx.
        destruct (match_one_spec face_distance references t k e')
          as [[Hnil _]|(j & student_id & enc & Hj & _ & Hlt & _ & Hone)].
        -- rewrite Hnil in Hx. inversion Hx.
        -- rewrite Hone in Hx. apply list_elem_of_singleton in Hx. subst x.
           cbn [faceId] in Hid. subst k. rewrite Hi in Hk. injection Hk as <-.
           exists (student_id, enc). split; [|exact Hlt].
           eapply list_elem_of_lookup_2; eassumption.
      * intros (ref & Href & Hlt).
        destruct (match_one_spec face_distance references t i e)
          as [[_ [Hall|(j & enc & Hj & _)]]
             |(j & student_id & enc & _ & _ & _ & _ & Hone)].
        -- exfalso.
           assert (Hin : face_distance (snd ref) e
                         ∈ reference_distances face_distance references e).
           { unfold reference_distances. apply list_elem_of_fmap.
             exists ref. auto. }
           specialize (Hall _ Hin). apply (Qlt_not_le _ _ Hlt Hall).
        -- exfalso. apply (Hids ("", enc)); [|reflexivity].
           eapply list_elem_of_lookup_2; eassumption.
        -- exists {| faceId := i;
                     studentId := student_id;
                     confidence := Fin (1 - face_distance enc e);
                     distance := Fin (face_distance enc e) |}.
           split; [|reflexivity].
           apply (match_loop_intro references t detected 0 i e _ Hi).
           cbn [Nat.add]. rewrite Hone. apply list_elem_of_singleton.
           reflexivity.
  - unfold process_attendance in Hresp.
    destruct (Nat.eqb (length photos) 0); [discriminate|].
    destruct (collect_detected_faces photos) as [|e0 pool]; [congruence|].
    cbn [length Nat.eqb] in Hresp. injection Hresp as <-. cbn [results].
    apply attendance_loop_pointwise, attendance_step_absent.
Qed.

End Endpoints.

(** * The statements on concrete requests *)

Import Examples.

(** C4 on a photo whose two faces are both closest to the same known face. *)
Lemma recognize_faces_identities_distinct_witness :
  exists r,
    recognize_faces dist1 exn_str Qminus round4_decimal known_AB two_faces (4 # 10) = inr r /\
    NoDup (map rf_id (recognized r)).
Proof.
  eexists. split.
  - vm_compute. reflexivity.
  - apply (recognize_faces_identities_distinct dist1 exn_str Qminus
             round4_decimal known_AB two_faces (4 # 10)).
    vm_compute. reflexivity.
Defined.

(** C10 on the same photo. *)
Lemma recognize_faces_accounts_for_every_face_witness :
  known_AB <> [] /\
  exists r,
    recognize_faces dist1 exn_str Qminus round4_decimal known_AB two_faces (4 # 10) = inr r /\
    (length (recognized r) + unrecognized_count r = total_faces_detected r)%nat /\
    total_faces_detected r = length two_faces.
Proof.
  split; [discriminate|].
  apply (recognize_faces_accounts_for_every_face dist1 exn_str Qminus
           round4_decimal known_AB two_faces (4 # 10)).
  discriminate.
Defined.

(** C1 on the same photo: the second face, whose closest known face is
    already taken, is counted as unrecognized. *)
Lemma recognize_loop_first_come_witness :
  let known_encodings := map kf_encoding known_AB in
  let known_info := map known_info_of known_AB in
  known_encodings <> [] /\
  st_recognized (recognize_loop dist1 Qminus round4_decimal known_encodings known_info (6 # 10) two_faces) =
    st_recognized (recognize_loop dist1 Qminus round4_decimal known_encodings known_info (6 # 10)
                     [([0], loc0)]) /\
  st_unrecognized_count
    (recognize_loop dist1 Qminus round4_decimal known_encodings known_info (6 # 10) two_faces) = 1%nat.
Proof.
  intros known_encodings known_info.
  assert (Hne : known_encodings <> []) by discriminate.
  split; [exact Hne|].
  destruct (recognize_loop_first_come_no_second_choice dist1 Qminus
              round4_decimal known_encodings known_info (6 # 10)
              [([0], loc0)] [1 # 10] loc1 Hne)
    as (d & _ & _ & Hno).
  apply Hno. intros [_ Hfresh]. apply Hfresh. vm_compute. left.
Defined.

(** C1 as stated fails: on this photo the code records one face and counts
    the other as unrecognized, although the known face [B] is unclaimed and
    within the tolerance of the second face; the policy of the document
    matches both. *)
Lemma greedy_fall_through_counterexample :
  exists r,
    recognize_faces dist1 exn_str Qminus round4_decimal known_AB two_faces (4 # 10) = inr r /\
    map rf_id (recognized r) = ["A"] /\
    unrecognized_count r = 1%nat /\
    Qle_bool (dist1 (kf_encoding known_B) [1 # 10]) (1 - (4 # 10)) = true /\
    Spec.matched_ids
      (Spec.greedy_exclusive dist1 known_AB (1 - (4 # 10)) (map fst two_faces)) =
      ["A"; "B"].
Proof.
  eexists. split; [vm_compute; reflexivity|].
  repeat split; vm_compute; reflexivity.
Qed.

(** C2 at the cut-off: distance 1/2 and tolerance 1/2. *)
Lemma match_decision_cutoff_witness :
  ((0 <= fst (compare_faces dist1 Qminus [[1 # 2]] [0%Q] (1 # 2)))%Z <-> 1 # 2 <= 1 # 2) /\
  (match_one dist1 [("H", [1 # 2])] (1 # 2) 0 [0] <> [] <-> 1 # 2 < 1 # 2) /\
  (fst (attendance_inner_loop dist1 [1 # 2] [[0]]) = true <-> 1 # 2 < 6 # 10).
Proof.
  apply (match_decision_cutoff dist1 Qminus [[1 # 2]] [0] (1 # 2)
           [("H", [1 # 2])] (1 # 2) 0 [1 # 2] [[0]] (1 # 2) (1 # 2) (1 # 2)).
  - apply is_minimum_b_sound. vm_compute. reflexivity.
  - apply is_minimum_b_sound. vm_compute. reflexivity.
  - apply Forall_forall. repeat constructor. discriminate.
  - apply is_minimum_b_sound. vm_compute. reflexivity.
Defined.

(** C2 as stated fails: at distance 1/2 and tolerance 1/2 [match_faces]
    records no match, and at distance 0.6 [process_attendance] finds the
    student absent. *)
Lemma match_at_the_cutoff_counterexample :
  Qle_bool (dist1 [1 # 2] [0]) (1 # 2) = true /\
  match_faces dist1 (request [[0]] [("H", [1 # 2])] (1 # 2)) =
    inr {| m_success := true; matches := [];
           m_totalDetected := 1; m_totalMatched := 0 |} /\
  Qle_bool (dist1 [6 # 10] [0]) (6 # 10) = true /\
  fst (attendance_inner_loop dist1 [6 # 10] [[0]]) = false.
Proof. repeat split; vm_compute; reflexivity. Qed.





(** C6 with one photo. *)
Lemma empty_references_outcome_witness :
  [Some [[0]]] <> [] /\
  match_faces dist1
    (Some {| req_detected := Some [[0]];
             req_references := Some [];
             req_tolerance := None |}) =
    inr {| m_success := true; matches := [];
           m_totalDetected := 1; m_totalMatched := 0 |}.
Proof.
  split; [discriminate|].
  apply (empty_references_outcome dist1 exn_str Qminus round4_decimal [[0]]
           None [Some [[0]]] two_faces (4 # 10)).
  discriminate.
Defined.

(** C6 as stated fails: [match_faces] and [process_attendance] succeed when
    there is no reference at all. *)
Lemma empty_references_succeed_counterexample :
  match_faces dist1 (request [[0]] [] (6 # 10)) =
    inr {| m_success := true; matches := [];
           m_totalDetected := 1; m_totalMatched := 0 |} /\
  process_attendance dist1 [Some [[0]]] (Some []) =
    inr {| a_success := true;
           a_message := None;
           results := [];
           totalStudents := Some 0%nat;
           totalDetected := Some 1%nat;
           totalMatched := Some 0%nat |}.
Proof. split; vm_compute; reflexivity. Qed.

(** The [HTTPException] that [recognize_faces] raises for an empty list of
    known faces is caught by its own [except Exception] clause: the caller
    gets the status 500. *)
Lemma recognize_faces_no_known_faces_status (str : exn -> string)
    (faces : list (Encoding * Location)) (threshold : Q) :
  recognize_faces dist1 str Qminus round4_decimal [] faces threshold =
    inl (HTTPException 500 (str (HTTPException 400 "No known faces provided"))).
Proof. reflexivity. Qed.

(** C7 on a photo with two faces and a student far from the pooled face:
    the student has a record, [ABSENT] with the confidence 0. *)
Lemma records_are_for_matches_witness :
  exists r resp,
    recognize_faces dist1 exn_str Qminus round4_decimal known_AB two_faces
      (4 # 10) = inr r /\
    process_attendance dist1 [Some [[7 # 10]]] (Some [student_A]) = inr resp /\
    Forall2 (absent_with_zero dist1 (collect_detected_faces [Some [[7 # 10]]]))
      [student_A] (results resp).
Proof.
  do 2 eexists.
  split; [vm_compute; reflexivity|].
  split; [vm_compute; reflexivity|].
  refine (proj2 (proj2
    (records_are_for_matches_absent_confidence_zero dist1 exn_str Qminus
       round4_decimal known_AB two_faces (4 # 10) _ [[1]] [("A", [0])]
       (Some (6 # 10)) [Some [[7 # 10]]] [student_A] _ _ _ _ _))).
  - vm_compute. reflexivity.
  - apply Forall_forall. repeat constructor; discriminate.
  - vm_compute. reflexivity.
  - vm_compute. discriminate.
Defined.

(** C7 as stated fails: the face that matches no reference gets no record
    from [match_faces], and the absent student gets the confidence 0, not the
    confidence [1 - 7/10] of the nearest face. *)
Lemma no_near_miss_score_counterexample :
  match_faces dist1 (request [[1]] [("A", [0])] (6 # 10)) =
    inr {| m_success := true; matches := [];
           m_totalDetected := 1; m_totalMatched := 0 |} /\
  (exists resp,
     process_attendance dist1 [Some [[7 # 10]]] (Some [student_A]) = inr resp /\
     map a_status (results resp) = ["ABSENT"] /\
     map a_confidence (results resp) = [0] /\
     ~ 1 - dist1 [0] [7 # 10] == 0).
Proof.
  split; [vm_compute; reflexivity|].
  eexists. split; [vm_compute; reflexivity|].
  split; [vm_compute; reflexivity|].
  split; [vm_compute; reflexivity|].
  intros H. vm_compute in H. discriminate H.
Qed.

(** C8 with one known face, and photos in which nothing is found. *)
Lemma empty_detection_set_is_success_witness :
  [known_A] <> [] /\
  photos_without_faces <> [] /\
  collect_detected_faces photos_without_faces = [] /\
  match_faces dist1
    (Some {| req_detected := Some [];
             req_references := Some [("A", [0])];
             req_tolerance := None |}) =
    inr {| m_success := true; matches := [];
           m_totalDetected := 0; m_totalMatched := 0 |}.
Proof.
  split; [discriminate|]. split; [discriminate|]. split; [reflexivity|].
  apply (empty_detection_set_is_success dist1 exn_str Qminus round4_decimal
           [known_A] (4 # 10)
           [("A", [0])] None photos_without_faces [student_A]);
    [discriminate | discriminate | reflexivity].
Defined.

(** C9 on two candidates at the same distance 1/10 from the face: the first
    one is selected in each loop. *)
Lemma first_candidate_witness :
  compare_faces dist1 Qminus tied_encodings [0] (6 # 10) =
    (0%Z, 1 - (1 # 10)) /\
  match_inner_loop dist1 tied_references [0] (6 # 10) =
    {| best_match := Some "P"; best_distance := Fin (1 # 10) |} /\
  ("P" <> "" ->
   match_one dist1 tied_references (6 # 10) 0 [0] =
     [ {| faceId := 0;
          studentId := "P";
          confidence := Fin (1 - dist1 [1 # 10] [0]);
          distance := Fin (dist1 [1 # 10] [0]) |} ]) /\
  attendance_inner_loop dist1 [0] tied_encodings =
    (true, 1 - dist1 [0] [1 # 10]).
Proof.
  apply (first_candidate_at_minimum_is_selected dist1 Qminus tied_encodings [0]
           (6 # 10) 0 (1 # 10) tied_references (6 # 10) 0 0 "P" [1 # 10]
           [0] tied_encodings 0 [1 # 10]).
  - exact (first_min_at_argmin
             (map (fun k => dist1 k [0]) tied_encodings) ltac:(discriminate)).
  - reflexivity.
  - exact (first_min_at_argmin
             (reference_distances dist1 tied_references [0])
             ltac:(discriminate)).
  - reflexivity.
  - reflexivity.
  - exact (first_min_at_argmin
             (pool_distances dist1 [0] tied_encodings) ltac:(discriminate)).
  - reflexivity.
Defined.

(** The tie, evaluated: index 0 and the identifier ["P"]. *)
Lemma first_candidate_tie_evaluated :
  fst (compare_faces dist1 Qminus tied_encodings [0] (6 # 10)) = 0%Z /\
  map studentId (match_one dist1 tied_references (6 # 10) 0 [0]) = ["P"].
Proof. split; vm_compute; reflexivity. Qed.

(** * Further properties of the two services *)

Import FaceRecognitionApi MlServiceApi.

(** ** The API key middleware and the encoding endpoints *)

Lemma opt_truthy_false (o : option string) :
  opt_truthy o = false <-> o = None \/ o = Some "".
Proof.
  destruct o as [[|c s]|]; cbn; split; intros H; auto; try discriminate.
  - destruct H as [H|H]; discriminate.
Qed.

(** X1. The middleware lets a request through exactly when the path is
    [/health], or no key is configured ([API_KEY] unset or empty), or the
    header [X-API-Key] equals the configured key; every other request is
    answered 401 when the header is missing or empty and 403 otherwise. *)
Theorem dispatch_access (path : string) (api_key expected_key : option string) :
  (dispatch path api_key expected_key = CallNext <->
     path = "/health" \/ opt_truthy expected_key = false \/
     api_key = expected_key) /\
  (dispatch path api_key expected_key = CallNext \/
   (opt_truthy api_key = false /\
    dispatch path api_key expected_key = JSONResponse 401 "API key is missing") \/
   (opt_truthy api_key = true /\
    dispatch path api_key expected_key = JSONResponse 403 "Invalid API key")).
Proof.
  unfold dispatch.
  destruct (String.eqb path "/health") eqn:Ep.
  - apply String.eqb_eq in Ep. split; [tauto | auto].
  - apply String.eqb_neq in Ep.
    destruct (opt_truthy expected_key) eqn:Ee; cbn [negb].
    + destruct (opt_truthy api_key) eqn:Ea; cbn [negb].
      * destruct (bool_decide (api_key <> expected_key)) eqn:Ed.
        -- apply bool_decide_eq_true in Ed. split; [|auto].
           split; [discriminate|]. intros [H|[H|H]]; congruence.
        -- apply bool_decide_eq_false in Ed.
           assert (api_key = expected_key)
             by (destruct (decide (api_key = expected_key)); tauto).
           split; [tauto | auto].
      * split; [|auto]. split; [discriminate|].
        intros [H|[H|H]]; congruence.
    + split; [tauto | auto].
Qed.

(** X2. [encode_face] succeeds exactly when one face is located and the
    encoder returns an encoding; the encoding it returns is then the first
    one, and otherwise there is none.  [face_count] is the number of faces
    located in every case. *)
Theorem encode_face_outcome (face_locations : list Location)
    (encodings : list Encoding) :
  let resp := encode_face face_locations encodings in
  (er_success resp = true <-> length face_locations = 1%nat /\ encodings <> []) /\
  er_encoding resp = (if er_success resp then head encodings else None) /\
  er_face_count resp = length face_locations.
Proof.
  unfold encode_face.
  destruct face_locations as [|l1 [|l2 ls]]; cbn.
  - repeat split; try discriminate. intros [H _]. discriminate.
  - destruct encodings as [|e es]; cbn; repeat split; try discriminate; auto.
    intros [_ H]. congruence.
  - repeat split; try discriminate. intros [H _]. discriminate.
Qed.

Lemma location_eta (l : Location) :
  {| top := top l; right := right l; bottom := bottom l; left := left l |} = l.
Proof. destruct l. reflexivity. Qed.

(** X3. On the same detections the two services accept the same photos:
    [generate_encoding] answers with an encoding exactly when [encode_face]
    succeeds, with the same encoding and the one located face; each of its
    refusals has the status 400. *)
Theorem generate_encoding_agrees_with_encode_face
    (face_locations : list Location) (encodings : list Encoding) :
  match generate_encoding (Some (Some (face_locations, encodings))) with
  | inr g =>
      er_success (encode_face face_locations encodings) = true /\
      er_encoding (encode_face face_locations encodings) = Some (g_encoding g) /\
      face_locations = [g_face_location g] /\
      g_success g = true
  | inl err =>
      er_success (encode_face face_locations encodings) = false /\
      err_status err = 400%Z
  end.
Proof.
  unfold generate_encoding, encode_face.
  destruct face_locations as [|l1 [|l2 ls]]; cbn; auto.
  destruct encodings as [|e es]; cbn; auto.
  rewrite location_eta. auto.
Qed.

(** ** [detect_faces] and [match_faces] *)

Section MatchFacesProperties.

Variable face_distance : Encoding -> Encoding -> Q.

Lemma detect_loop_lookup (pairs : list (Encoding * Location)) (i k : nat)
    (f : DetectedFace) :
  detect_loop i pairs !! k = Some f ->
  df_id f = (i + k)%nat /\ pairs !! k = Some (df_encoding f, df_location f).
Proof.
  revert i k. induction pairs as [|[enc loc] pairs IH]; intros i k Hf.
  - destruct k; discriminate.
  - destruct k as [|k]; cbn in Hf.
    + injection Hf as <-. cbn. rewrite location_eta, Nat.add_0_r. auto.
    + apply IH in Hf as [Hid Hk]. rewrite Hid, Nat.add_succ_r. auto.
Qed.

Lemma detect_loop_length (pairs : list (Encoding * Location)) (i : nat) :
  length (detect_loop i pairs) = length pairs.
Proof.
  revert i. induction pairs as [|[enc loc] pairs IH]; intros i; cbn;
    [reflexivity | rewrite IH; reflexivity].
Qed.

(** X4. [detect_faces] numbers the faces by their position: the face at
    position [i] of the answer has the identifier [i], the [i]-th encoding
    and the [i]-th location, and [count] is the number of faces listed, the
    smaller of the numbers of encodings and of locations. *)
Theorem detect_faces_identifiers (face_locations : list Location)
    (face_encodings : list Encoding) :
  exists resp,
    detect_faces (Some (Some (face_locations, face_encodings))) = inr resp /\
    d_count resp = length (d_faces resp) /\
    d_count resp = Nat.min (length face_encodings) (length face_locations) /\
    forall i f, d_faces resp !! i = Some f ->
      df_id f = i /\
      face_encodings !! i = Some (df_encoding f) /\
      face_locations !! i = Some (df_location f).
Proof.
  unfold detect_faces.
  destruct (Nat.eqb (length face_locations) 0) eqn:E; eexists;
    (split; [reflexivity|]); cbn [d_count d_faces].
  - apply Nat.eqb_eq in E. rewrite E, Nat.min_0_r.
    repeat split; try reflexivity; destruct i; discriminate.
  - split; [reflexivity|]. split.
    + rewrite detect_loop_length. apply length_zip_with.
    + intros i f Hf. apply detect_loop_lookup in Hf as [Hid Hf].
      split; [exact Hid|].
      apply lookup_zip_with_Some in Hf as (e & l & Heq & He & Hl).
      injection Heq as <- <-. auto.
Qed.

(** Every record of the loop of [match_faces] belongs to the detected face
    whose index it carries and to a reference closer than the tolerance. *)
Lemma match_loop_records (references : list (string * Encoding)) (tol : Q)
    (detected : list Encoding) (i : nat) (x : Match) :
  x ∈ match_loop face_distance references tol i detected ->
  exists k student_id enc e,
    faceId x = (i + k)%nat /\
    detected !! k = Some e /\
    (student_id, enc) ∈ references /\
    student_id <> "" /\
    face_distance enc e < tol /\
    is_minimum (face_distance enc e)
      (reference_distances face_distance references e) /\
    x = {| faceId := (i + k)%nat;
           studentId := student_id;
           confidence := Fin (1 - face_distance enc e);
           distance := Fin (face_distance enc e) |}.
Proof.
  intros Hx. apply match_loop_elem in Hx as (k & e & Hk & Hx).
  destruct (match_one_spec face_distance references tol (i + k) e)
    as [[Hnil _]|(j & student_id & enc & Hj & Hid & Hlt & Hmin & Hone)].
  - rewrite Hnil in Hx. inversion Hx.
  - rewrite Hone in Hx. apply list_elem_of_singleton in Hx. subst x.
    exists k, student_id, enc, e. cbn [faceId].
    refine (conj eq_refl (conj Hk (conj _ (conj Hid (conj Hlt (conj _ eq_refl)))))).
    + eapply list_elem_of_lookup_2; eassumption.
    + eapply first_min_at_is_minimum; eassumption.
Qed.

(** X5. The two endpoints compose: when the encodings of an answer of
    [detect_faces] are sent to [match_faces], the [faceId] of every match is
    the identifier of a face of that answer, and the match gives the distance
    from that face to a reference closer than the tolerance. *)
Theorem match_face_ids_are_detect_ids (photo : Photo) (dresp : DetectResponse)
    (references : list (string * Encoding)) (tol : option Q)
    (m : MatchResponse) :
  detect_faces photo = inr dresp ->
  match_faces face_distance
    (match_request (map df_encoding (d_faces dresp)) references tol) = inr m ->
  forall x, x ∈ matches m ->
    exists f student_id enc,
      d_faces dresp !! faceId x = Some f /\
      df_id f = faceId x /\
      (student_id, enc) ∈ references /\
      studentId x = student_id /\
      distance x = Fin (face_distance enc (df_encoding f)) /\
      face_distance enc (df_encoding f) < default (6 # 10) tol.
Proof.
  intros Hd Hm x Hx. cbn in Hm. injection Hm as <-. cbn [matches] in Hx.
  apply match_loop_records in Hx
    as (k & student_id & enc & e & Hid & Hk & Href & _ & Hlt & _ & ->).
  cbn [Nat.add] in *. cbn [faceId studentId distance].
  rewrite list_lookup_fmap in Hk.
  destruct (d_faces dresp !! k) as [f|] eqn:Hf; [|discriminate].
  cbn in Hk. injection Hk as <-.
  exists f, student_id, enc.
  refine (conj eq_refl (conj _ (conj Href (conj eq_refl (conj eq_refl _))))).
  - destruct photo as [[[locs encs]|]|]; try discriminate.
    cbn in Hd. destruct (Nat.eqb (length locs) 0); injection Hd as <-;
      cbn [d_faces] in Hf.
    + destruct k; discriminate.
    + apply detect_loop_lookup in Hf as [Hid' _]. exact Hid'.
  - destruct tol; exact Hlt.
Qed.

Lemma match_loop_length (references : list (string * Encoding)) (tol : Q)
    (detected : list Encoding) (i : nat) :
  (length (match_loop face_distance references tol i detected)
   <= length detected)%nat.
Proof.
  revert i. induction detected as [|e detected IH]; intros i; cbn; [lia|].
  rewrite length_app. specialize (IH (S i)).
  destruct (match_one_spec face_distance references tol i e)
    as [[-> _]|(j & student_id & enc & _ & _ & _ & _ & ->)]; cbn; lia.
Qed.

Lemma match_loop_sorted (references : list (string * Encoding)) (tol : Q)
    (detected : list Encoding) (i : nat) :
  StronglySorted lt
    (map faceId (match_loop face_distance references tol i detected)).
Proof.
  revert i. induction detected as [|e detected IH]; intros i; cbn.
  - constructor.
  - destruct (match_one_spec face_distance references tol i e)
      as [[-> _]|(j & student_id & enc & _ & _ & _ & _ & ->)]; cbn.
    + apply IH.
    + constructor; [apply IH|].
      apply List.Forall_forall. intros n Hn.
      apply in_map_iff in Hn as (x & <- & Hx).
      apply list_elem_of_In, match_loop_records in Hx
        as (k & _ & _ & _ & -> & _). lia.
Qed.

(** X6. [match_faces] gives every detected face at most one match: the face
    indexes of the matches are strictly increasing and below
    [totalDetected], and [totalMatched], the number of matches, is at most
    [totalDetected]. *)
Theorem match_faces_one_match_per_face (detected : list Encoding)
    (references : list (string * Encoding)) (tol : option Q) :
  exists m,
    match_faces face_distance (match_request detected references tol) = inr m /\
    StronglySorted lt (map faceId (matches m)) /\
    (forall x, x ∈ matches m -> (faceId x < m_totalDetected m)%nat) /\
    m_totalDetected m = length detected /\
    m_totalMatched m = length (matches m) /\
    (m_totalMatched m <= m_totalDetected m)%nat.
Proof.
  eexists. split; [reflexivity|]. cbn [matches m_totalDetected m_totalMatched].
  split; [apply match_loop_sorted|]. split.
  - intros x Hx. apply match_loop_records in Hx as (k & _ & _ & e & -> & Hk & _).
    apply lookup_lt_Some in Hk. lia.
  - repeat split. apply match_loop_length.
Qed.

Lemma match_one_shift (references : list (string * Encoding)) (tol : Q)
    (n i : nat) (e : Encoding) :
  match_one face_distance references tol (n + i) e =
  map (shift_faceId n) (match_one face_distance references tol i e).
Proof.
  unfold match_one.
  destruct (best_match _) as [student_id|]; [|reflexivity].
  destruct (str_truthy student_id); reflexivity.
Qed.

Lemma match_loop_shift (references : list (string * Encoding)) (tol : Q)
    (n i : nat) (detected : list Encoding) :
  match_loop face_distance references tol (n + i) detected =
  map (shift_faceId n) (match_loop face_distance references tol i detected).
Proof.
  revert i. induction detected as [|e detected IH]; intros i; cbn.
  - reflexivity.
  - rewrite map_app, match_one_shift, <- IH, Nat.add_succ_r. reflexivity.
Qed.

Lemma match_loop_app (references : list (string * Encoding)) (tol : Q)
    (i : nat) (detected1 detected2 : list Encoding) :
  match_loop face_distance references tol i (detected1 ++ detected2) =
  match_loop face_distance references tol i detected1 ++
  match_loop face_distance references tol (length detected1 + i) detected2.
Proof.
  revert i. induction detected1 as [|e detected1 IH]; intros i; cbn.
  - reflexivity.
  - rewrite IH, <- app_assoc, Nat.add_succ_r. reflexivity.
Qed.

(** X7. Faces are matched independently of one another: the matches of two
    lists of faces sent together are the matches of the first list followed
    by the matches of the second, their face indexes moved by the length of
    the first. *)
Theorem match_faces_of_appended_faces (detected1 detected2 : list Encoding)
    (references : list (string * Encoding)) (tol : option Q) :
  matches_of (match_faces face_distance
                (match_request (detected1 ++ detected2) references tol)) =
  matches_of (match_faces face_distance
                (match_request detected1 references tol)) ++
  map (shift_faceId (length detected1))
    (matches_of (match_faces face_distance
                   (match_request detected2 references tol))).
Proof.
  cbn. rewrite match_loop_app, <- match_loop_shift. reflexivity.
Qed.

Lemma match_one_tolerance_mono (references : list (string * Encoding))
    (t t' : Q) (i : nat) (e : Encoding) (x : Match) :
  t <= t' ->
  x ∈ match_one face_distance references t i e ->
  x ∈ match_one face_distance references t' i e.
Proof.
  intros Hle Hx.
  destruct (match_one_spec face_distance references t i e)
    as [[Hnil _]|(j & student_id & enc & Hj & Hid & Hlt & Hmin & Hone)].
  { rewrite Hnil in Hx. inversion Hx. }
  rewrite Hone in Hx. apply list_elem_of_singleton in Hx. subst x.
  assert (Hin : face_distance enc e ∈ reference_distances face_distance references e).
  { destruct Hmin as (Hat & _). eapply list_elem_of_lookup_2; eassumption. }
  destruct (match_one_spec face_distance references t' i e)
    as [[_ [Hall|(j' & enc' & Hj' & _ & Hmin')]]
       |(j' & student_id' & enc' & Hj' & _ & _ & Hmin' & ->)].
  - exfalso. specialize (Hall _ Hin).
    apply (Qlt_not_le _ _ Hlt). apply (Qle_trans _ t'); assumption.
  - exfalso. pose proof (first_min_at_index_unique _ _ _ _ _ Hmin Hmin') as <-.
    congruence.
  - pose proof (first_min_at_index_unique _ _ _ _ _ Hmin Hmin') as <-.
    rewrite Hj in Hj'. injection Hj' as <- <-. apply list_elem_of_singleton.
    reflexivity.
Qed.

Lemma match_loop_tolerance_mono (references : list (string * Encoding))
    (t t' : Q) (detected : list Encoding) (i : nat) (x : Match) :
  t <= t' ->
  x ∈ match_loop face_distance references t i detected ->
  x ∈ match_loop face_distance references t' i detected.
Proof.
  intros Hle. revert i. induction detected as [|e detected IH]; intros i Hx;
    cbn in *; [exact Hx|].
  apply elem_of_app in Hx as [Hx|Hx]; apply elem_of_app.
  - left. eapply match_one_tolerance_mono; eassumption.
  - right. apply IH, Hx.
Qed.

(** X8. Raising the tolerance of [match_faces] keeps every match: a match
    found with a tolerance is found unchanged, same face, same student, same
    distance, with every larger tolerance. *)
Theorem match_faces_tolerance_monotone (detected : list Encoding)
    (references : list (string * Encoding)) (t t' : Q) (x : Match) :
  t <= t' ->
  x ∈ matches_of (match_faces face_distance
                    (match_request detected references (Some t))) ->
  x ∈ matches_of (match_faces face_distance
                    (match_request detected references (Some t'))).
Proof. intros Hle. cbn. apply match_loop_tolerance_mono, Hle. Qed.

End MatchFacesProperties.

(** ** [recognize_faces]: which identities are recognized *)

Section RecognizedIdentities.

Variable face_distance : Encoding -> Encoding -> Q.
Variable exn_str : exn -> string.
Variable fsub : Q -> Q -> Q.
Variable round4 : Q -> Q.

(** X9. An identity is among the recognized ones exactly when it is the
    candidate (the first known face at minimum distance) of some face of the
    photo and lies within the tolerance [1 - threshold] of it: a claimed
    candidate makes later faces unrecognized, but no such identity is ever
    missed. *)
Theorem recognized_identities_characterised (known : list KnownFace)
    (faces : list (Encoding * Location)) (threshold : Q)
    (r : RecognitionResponse) (id : string) :
  recognize_faces face_distance exn_str fsub round4 known faces threshold = inr r ->
  id ∈ map rf_id (recognized r) <->
  exists e loc k,
    (e, loc) ∈ faces /\
    known !! argmin (map (fun k => face_distance (kf_encoding k) e) known) = Some k /\
    face_distance (kf_encoding k) e <= fsub 1 threshold /\
    kf_id k = id.
Proof.
  intros Hr. apply recognize_faces_recognized in Hr as [Hne ->].
  rewrite <- (recognize_loop_claimed face_distance fsub round4 known (fsub 1 threshold) faces id Hne).
  symmetry. apply recognize_loop_inv.
Qed.

(** X10. Lowering the confidence threshold never loses an identity: every
    identity recognized with a threshold is recognized with every smaller
    one.  The subtraction of floats is monotone, which is all that is used of
    it. *)
Theorem recognized_identities_threshold_monotone (known : list KnownFace)
    (faces : list (Encoding * Location)) (threshold threshold' : Q)
    (r r' : RecognitionResponse) (id : string) :
  (forall a b : Q, a <= b -> fsub 1 b <= fsub 1 a) ->
  threshold' <= threshold ->
  recognize_faces face_distance exn_str fsub round4 known faces threshold = inr r ->
  recognize_faces face_distance exn_str fsub round4 known faces threshold' = inr r' ->
  id ∈ map rf_id (recognized r) ->
  id ∈ map rf_id (recognized r').
Proof.
  intros Hmono Hle Hr Hr' Hid.
  apply recognize_faces_recognized in Hr as [Hne Hrec]. rewrite Hrec in Hid.
  apply recognize_faces_recognized in Hr' as [_ ->].
  apply recognize_loop_inv in Hid. apply recognize_loop_inv.
  apply (recognize_loop_claimed face_distance fsub round4 known _ faces id Hne) in Hid
    as (e & loc & k & Hin & Hk & Hd & Hkid).
  apply (recognize_loop_claimed face_distance fsub round4 known _ faces id Hne).
  exists e, loc, k. repeat split; try assumption.
  apply (Qle_trans _ (fsub 1 threshold)); [exact Hd | apply Hmono, Hle].
Qed.

(** X11. [recognize_faces] never recognizes more faces than there are known
    faces, nor more than there are faces in the photo. *)
Theorem recognized_count_bounded (known : list KnownFace)
    (faces : list (Encoding * Location)) (threshold : Q)
    (r : RecognitionResponse) :
  recognize_faces face_distance exn_str fsub round4 known faces threshold = inr r ->
  (length (recognized r) <= length known)%nat /\
  (length (recognized r) <= length faces)%nat.
Proof.
  intros Hr. apply recognize_faces_recognized in Hr as [Hne ->].
  pose proof (recognize_loop_inv face_distance fsub round4 (map kf_encoding known)
                (map known_info_of known) (fsub 1 threshold) faces)
    as (_ & Hnodup & Hcount).
  split; [|lia].
  rewrite <- (length_map rf_id), <- (length_map kf_id known).
  apply submseteq_length, NoDup_submseteq; [exact Hnodup|].
  intros id Hid. apply list_elem_of_fmap in Hid as (x & -> & Hx).
  apply recognize_loop_records in Hx as (k & e & loc & Hk & _ & _ & ->);
    [|exact Hne].
  apply list_elem_of_fmap. exists k. auto.
Qed.

End RecognizedIdentities.


(** ** [process_attendance]: the pool of faces and the verdicts *)

Section AttendanceProperties.

Variable face_distance : Encoding -> Encoding -> Q.

Lemma collect_fold (photos : list (option (list Encoding)))
    (acc : list Encoding) :
  fold_left
    (fun all_detected_faces photo =>
       match photo with
       | None => all_detected_faces
       | Some face_encodings =>
           if (0 <? length face_encodings)%nat
           then all_detected_faces ++ face_encodings
           else all_detected_faces
       end) photos acc =
  acc ++ mjoin (omap id photos).
Proof.
  revert acc. induction photos as [|[encs|] photos IH]; intros acc; cbn.
  - rewrite app_nil_r. reflexivity.
  - rewrite IH. destruct encs as [|e encs]; cbn.
    + reflexivity.
    + rewrite <- app_assoc. reflexivity.
  - apply IH.
Qed.

(** The pool is the concatenation, in order, of the encodings of the photos
    that load. *)
Lemma collect_detected_faces_join (photos : list (option (list Encoding))) :
  collect_detected_faces photos = mjoin (omap id photos).
Proof. unfold collect_detected_faces. rewrite collect_fold. reflexivity. Qed.

(** X14. A photo that does not load, or in which no face is found, changes
    nothing: the answer of [process_attendance] is the one for the other
    photos. *)
Theorem process_attendance_skips_empty_photos
    (photos1 photos2 : list (option (list Encoding)))
    (photo : option (list Encoding)) (students_json : option (list Student)) :
  photo = None \/ photo = Some [] ->
  photos1 ++ photos2 <> [] ->
  process_attendance face_distance (photos1 ++ photo :: photos2) students_json =
  process_attendance face_distance (photos1 ++ photos2) students_json.
Proof.
  intros Hphoto Hne. unfold process_attendance.
  assert (Hpool : collect_detected_faces (photos1 ++ photo :: photos2)
                  = collect_detected_faces (photos1 ++ photos2)).
  { rewrite !collect_detected_faces_join, !omap_app, !join_app.
    destruct Hphoto as [-> | ->]; cbn; reflexivity. }
  rewrite Hpool.
  destruct (photos1 ++ photos2) as [|p ps] eqn:E; [congruence|].
  destruct photos1; reflexivity.
Qed.

Lemma attendance_step_verdict (pool : list Encoding) (st : AttendanceState)
    (s : Student) :
  exists a,
    as_results (attendance_step face_distance pool st s) = as_results st ++ [a] /\
    verdict_against_pool face_distance pool s a.
Proof.
  unfold attendance_step, no_faceEncoding, verdict_against_pool.
  destruct (s_faceEncoding s) as [[|x enc]|] eqn:Henc.
  - eexists. split; [reflexivity|]. split; [reflexivity|].
    intros enc' [= <-] Hne. congruence.
  - change (default [] (Some (x :: enc))) with (x :: enc).
    destruct (attendance_inner_loop_spec face_distance (x :: enc) pool)
      as [[-> Hall]|(j & e & Hj & -> & Hlt & Hmin)];
      eexists; (split; [reflexivity|]); (split; [reflexivity|]);
      intros enc' [= <-] _.
    + right. cbn. repeat split. intros e He. apply Hall.
      unfold pool_distances. apply list_elem_of_fmap. exists e. auto.
    + left. cbn. repeat split. exists e.
      split; [eapply list_elem_of_lookup_2; eassumption|].
      split; [exact Hlt|]. split; [reflexivity|].
      intros e' He'. destruct Hmin as (_ & Hmin & _). apply Hmin.
      unfold pool_distances. apply list_elem_of_fmap. exists e'. auto.
  - eexists. split; [reflexivity|]. split; [reflexivity|]. discriminate.
Qed.

Lemma process_attendance_results (photos : list (option (list Encoding)))
    (students : list Student) (resp : AttendanceResponse) :
  process_attendance face_distance photos (Some students) = inr resp ->
  collect_detected_faces photos <> [] ->
  results resp =
    as_results (attendance_loop face_distance (collect_detected_faces photos)
                  students).
Proof.
  unfold process_attendance. intros Hresp Hpool.
  destruct (Nat.eqb (length photos) 0); [discriminate|].
  destruct (collect_detected_faces photos) as [|e pool]; [congruence|].
  cbn [length Nat.eqb] in Hresp. injection Hresp as <-. reflexivity.
Qed.

(** X15. When a face was detected, the verdict for a student with a
    reference encoding is [PRESENT] exactly when some pooled face is closer
    than 0.6 to the reference, and its confidence is then one minus the
    smallest such distance; otherwise the verdict is [ABSENT] with confidence
    0 and no reason.  The verdict stands at the position of the student. *)
Theorem process_attendance_verdict_of_student
    (photos : list (option (list Encoding))) (students : list Student)
    (resp : AttendanceResponse) (i : nat) (s : Student) :
  process_attendance face_distance photos (Some students) = inr resp ->
  collect_detected_faces photos <> [] ->
  students !! i = Some s ->
  exists a,
    results resp !! i = Some a /\
    verdict_against_pool face_distance (collect_detected_faces photos) s a.
Proof.
  intros Hresp Hpool Hs.
  rewrite (process_attendance_results _ _ _ Hresp Hpool).
  pose proof (attendance_loop_pointwise face_distance (collect_detected_faces photos)
                (verdict_against_pool face_distance (collect_detected_faces photos))
                (attendance_step_verdict (collect_detected_faces photos))
                students) as Hall.
  destruct (Forall2_lookup_l _ _ _ _ _ Hall Hs) as (a & Ha & HP).
  exists a. auto.
Qed.

Lemma attendance_step_consistent (pool : list Encoding) (st : AttendanceState)
    (s : Student) :
  exists a,
    as_results (attendance_step face_distance pool st s) = as_results st ++ [a] /\
    consistent_verdict a.
Proof.
  unfold attendance_step, consistent_verdict.
  destruct (no_faceEncoding s).
  - eexists. split; [reflexivity|]. right. cbn. auto.
  - destruct (attendance_inner_loop_spec face_distance
                (default [] (s_faceEncoding s)) pool)
      as [[-> _]|(j & e & _ & -> & Hlt & _)];
      eexists; (split; [reflexivity|]); cbn.
    + right. auto.
    + left. repeat split. lra.
Qed.

(** X16. In every record of [process_attendance] the flag, the status and
    the confidence agree: a [PRESENT] record has [detected] true and a
    confidence above 0.4, an [ABSENT] record has [detected] false and the
    confidence 0. *)
Theorem process_attendance_records_consistent
    (photos : list (option (list Encoding)))
    (students_json : option (list Student)) (a : AttendanceResult) :
  a ∈ results_of (process_attendance face_distance photos students_json) ->
  consistent_verdict a.
Proof.
  unfold process_attendance.
  destruct (Nat.eqb (length photos) 0); [intros H; inversion H|].
  destruct students_json as [students|]; [|intros H; inversion H].
  destruct (Nat.eqb (length (collect_detected_faces photos)) 0);
    cbn [results_of results]; [intros H; inversion H|].
  intros Ha. apply list_elem_of_lookup in Ha as [i Hi].
  pose proof (attendance_loop_pointwise face_distance (collect_detected_faces photos)
                (fun _ a => consistent_verdict a)
                (attendance_step_consistent (collect_detected_faces photos))
                students) as Hall.
  destruct (Forall2_lookup_r _ _ _ _ _ Hall Hi) as (s & _ & HP). exact HP.
Qed.

Lemma pool_distances_perm (enc : Encoding) (pool pool' : list Encoding) (x : Q) :
  pool ≡ₚ pool' ->
  x ∈ pool_distances face_distance enc pool ->
  x ∈ pool_distances face_distance enc pool'.
Proof.
  unfold pool_distances. intros Hperm Hx.
  apply list_elem_of_fmap in Hx as (e & -> & He).
  apply list_elem_of_fmap. exists e. split; [reflexivity|].
  rewrite <- Hperm. exact He.
Qed.

Lemma attendance_step_perm (pool pool' : list Encoding)
    (st st' : AttendanceState) (s : Student) :
  pool ≡ₚ pool' ->
  exists a a',
    as_results (attendance_step face_distance pool st s) = as_results st ++ [a] /\
    as_results (attendance_step face_distance pool' st' s) =
      as_results st' ++ [a'] /\
    same_verdict a a'.
Proof.
  intros Hperm. assert (Hperm' : pool' ≡ₚ pool) by (symmetry; exact Hperm).
  unfold attendance_step, same_verdict.
  destruct (no_faceEncoding s).
  - do 2 eexists. split; [reflexivity|]. split; [reflexivity|].
    cbn. repeat split; reflexivity.
  - set (enc := default [] (s_faceEncoding s)).
    destruct (attendance_inner_loop_spec face_distance enc pool)
      as [[-> Hall]|(j & e & _ & -> & Hlt & Hmin)];
      destruct (attendance_inner_loop_spec face_distance enc pool')
        as [[-> Hall']|(j' & e' & _ & -> & Hlt' & Hmin')];
      do 2 eexists; (split; [reflexivity|]); (split; [reflexivity|]); cbn.
    + repeat split; reflexivity.
    + exfalso. apply first_min_at_is_minimum in Hmin' as [Hin' _].
      apply (pool_distances_perm enc _ _ _ Hperm') in Hin'.
      specialize (Hall _ Hin'). lra.
    + exfalso. apply first_min_at_is_minimum in Hmin as [Hin _].
      apply (pool_distances_perm enc _ _ _ Hperm) in Hin.
      specialize (Hall' _ Hin). lra.
    + repeat split; try reflexivity.
      apply first_min_at_is_minimum in Hmin as [Hin Hmin].
      apply first_min_at_is_minimum in Hmin' as [Hin' Hmin'].
      apply (pool_distances_perm enc _ _ _ Hperm) in Hin.
      apply (pool_distances_perm enc _ _ _ Hperm') in Hin'.
      specialize (Hmin _ Hin'). specialize (Hmin' _ Hin). lra.
Qed.

Lemma attendance_loop_perm (pool pool' : list Encoding)
    (students : list Student) :
  pool ≡ₚ pool' ->
  Forall2 same_verdict
    (as_results (attendance_loop face_distance pool students))
    (as_results (attendance_loop face_distance pool' students)).
Proof.
  intros Hperm. induction students as [|s students IH] using rev_ind.
  - constructor.
  - rewrite !attendance_loop_snoc.
    destruct (attendance_step_perm pool pool'
                (attendance_loop face_distance pool students)
                (attendance_loop face_distance pool' students) s Hperm)
      as (a & a' & -> & -> & Hsame).
    apply Forall2_app; [exact IH|]. constructor; [exact Hsame | constructor].
Qed.

(** X17. The order of the photos, and of the faces in them, does not change
    the verdicts: for the same photos in another order every student gets the
    same status, the same flag and an equal confidence. *)
Theorem process_attendance_photo_order
    (photos photos' : list (option (list Encoding)))
    (students_json : option (list Student)) :
  photos ≡ₚ photos' ->
  Forall2 same_verdict
    (results_of (process_attendance face_distance photos students_json))
    (results_of (process_attendance face_distance photos' students_json)).
Proof.
  intros Hperm. unfold process_attendance.
  assert (Hpool : collect_detected_faces photos ≡ₚ collect_detected_faces photos').
  { rewrite !collect_detected_faces_join. rewrite Hperm. reflexivity. }
  rewrite <- (Permutation_length Hperm), <- (Permutation_length Hpool).
  destruct (Nat.eqb (length photos) 0); [constructor|].
  destruct students_json as [students|]; [|constructor].
  destruct (Nat.eqb (length (collect_detected_faces photos)) 0);
    cbn [results_of results]; [constructor|].
  apply attendance_loop_perm, Hpool.
Qed.

Lemma attendance_step_matched (pool : list Encoding) (st : AttendanceState)
    (s : Student) :
  exists a,
    as_results (attendance_step face_distance pool st s) = as_results st ++ [a] /\
    ((a_detected a = false /\
      as_matched_students (attendance_step face_distance pool st s) =
        as_matched_students st) \/
     (a_detected a = true /\
      as_matched_students (attendance_step face_distance pool st s) =
        as_matched_students st ∪ {[ s_id s ]})).
Proof.
  unfold attendance_step.
  destruct (no_faceEncoding s).
  - eexists. split; [reflexivity|]. left. auto.
  - destruct (attendance_inner_loop _ _ _) as [[|] best_confidence];
      eexists; (split; [reflexivity|]); [right | left]; auto.
Qed.

(** The loop over the students keeps the count of the matched students in
    line with the records. *)
Lemma attendance_loop_totals (pool : list Encoding) (students : list Student) :
  let st := attendance_loop face_distance pool students in
  length (as_results st) = length students /\
  (forall id, id ∈ as_matched_students st -> id ∈ map s_id students) /\
  (size (as_matched_students st)
   <= length (List.filter a_detected (as_results st)))%nat /\
  (NoDup (map s_id students) ->
   size (as_matched_students st) =
     length (List.filter a_detected (as_results st))).
Proof.
  induction students as [|s students IH] using rev_ind; cbv zeta.
  - cbn. split; [reflexivity|]. split; [intros id Hid; set_solver|].
    rewrite size_empty. split; [lia | reflexivity].
  - rewrite attendance_loop_snoc. cbv zeta in IH.
    set (st := attendance_loop face_distance pool students) in *.
    destruct IH as (Hlen & Hsub & Hle & Heq).
    destruct (attendance_step_matched pool st s)
      as (a & -> & [[Hdet ->]|[Hdet ->]]);
      rewrite List.filter_app, !length_app, map_app; cbn [List.filter map length];
      rewrite Hdet; cbn [length].
    + split; [lia|]. split; [|split].
      * intros id Hid. apply elem_of_app. left. auto.
      * lia.
      * intros Hnd. apply NoDup_app in Hnd as (Hnd & _ & _).
        rewrite (Heq Hnd). lia.
    + split; [lia|]. split; [|split].
      * intros id Hid. apply elem_of_union in Hid as [Hid|Hid].
        -- apply elem_of_app. left. auto.
        -- apply elem_of_singleton in Hid. subst id.
           apply elem_of_app. right. apply list_elem_of_singleton. reflexivity.
      * rewrite size_union_alt.
        assert (size (({[ s_id s ]} : gset string) ∖ as_matched_students st)
                <= 1)%nat.
        { rewrite <- (size_singleton (C := gset string) (s_id s)).
          apply subseteq_size. intros x Hx.
          apply elem_of_difference in Hx as [Hx _]. exact Hx. }
        lia.
      * intros Hnd. apply NoDup_app in Hnd as (Hnd & Hfresh & _).
        rewrite size_union, size_singleton, (Heq Hnd); [lia|].
        apply disjoint_singleton_r. intros Hin. apply Hsub in Hin.
        apply (Hfresh _ Hin). apply list_elem_of_singleton. reflexivity.
Qed.

(** X18. The totals of [process_attendance] fit its records: when a face was
    detected, [totalStudents] is the number of records, [totalDetected] the
    size of the pool, and [totalMatched] is at most the number of records
    with [detected] true, and equal to it when the student identifiers are
    pairwise distinct. *)
Theorem process_attendance_totals
    (photos : list (option (list Encoding))) (students : list Student)
    (resp : AttendanceResponse) :
  process_attendance face_distance photos (Some students) = inr resp ->
  collect_detected_faces photos <> [] ->
  exists n,
    totalMatched resp = Some n /\
    totalStudents resp = Some (length (results resp)) /\
    length (results resp) = length students /\
    totalDetected resp = Some (length (collect_detected_faces photos)) /\
    (n <= length (List.filter a_detected (results resp)))%nat /\
    (NoDup (map s_id students) ->
     n = length (List.filter a_detected (results resp))).
Proof.
  unfold process_attendance. intros Hresp Hpool.
  destruct (Nat.eqb (length photos) 0); [discriminate|].
  destruct (collect_detected_faces photos) as [|e pool] eqn:E; [congruence|].
  cbn [length Nat.eqb] in Hresp. injection Hresp as <-.
  cbn [totalMatched totalStudents totalDetected results].
  destruct (attendance_loop_totals (e :: pool) students)
    as (Hlen & _ & Hle & Heq).
  eexists. split; [reflexivity|]. rewrite Hlen. auto.
Qed.

End AttendanceProperties.

(** ** The endpoints against one another *)

Section AcrossEndpoints.

Variable face_distance : Encoding -> Encoding -> Q.
Variable exn_str : exn -> string.
Variable fsub : Q -> Q -> Q.
Variable round4 : Q -> Q.

(** A record of the loop of [match_faces], with the position of its
    reference. *)
Lemma match_loop_records_first (references : list (string * Encoding)) (tol : Q)
    (detected : list Encoding) (i : nat) (x : Match) :
  x ∈ match_loop face_distance references tol i detected ->
  exists k j enc e,
    detected !! k = Some e /\
    references !! j = Some (studentId x, enc) /\
    studentId x <> "" /\
    face_distance enc e < tol /\
    first_min_at (reference_distances face_distance references e) j
      (face_distance enc e).
Proof.
  intros Hx. apply match_loop_elem in Hx as (k & e & Hk & Hx).
  destruct (match_one_spec face_distance references tol (i + k) e)
    as [[Hnil _]|(j & student_id & enc & Hj & Hid & Hlt & Hmin & Hone)].
  - rewrite Hnil in Hx. inversion Hx.
  - rewrite Hone in Hx. apply list_elem_of_singleton in Hx. subst x.
    exists k, j, enc, e. cbn [studentId]. auto.
Qed.

(** X19. A student matched by [match_faces] with the default tolerance is
    found present by [process_attendance] on the same faces: for every match
    against the references of the students, a student with the matched
    identifier has a [PRESENT] record. *)
Theorem matched_student_is_present (detected : list Encoding)
    (students : list Student) (x : Match) :
  x ∈ matches_of (match_faces face_distance
                    (match_request detected (references_of_students students)
                       None)) ->
  exists i s a,
    students !! i = Some s /\
    s_id s = studentId x /\
    results_of (process_attendance face_distance [Some detected]
                  (Some students)) !! i = Some a /\
    a_status a = "PRESENT" /\ a_detected a = true.
Proof.
  cbn [matches_of match_faces match_request matches]. intros Hx.
  apply match_loop_records_first in Hx
    as (k & j & enc & e & Hk & Hj & _ & Hlt & _).
  assert (Hs : exists s, s ∈ students /\ s_id s = studentId x /\
                         s_faceEncoding s = Some enc /\ enc <> []).
  { apply list_elem_of_lookup_2 in Hj.
    unfold references_of_students in Hj.
    apply list_elem_of_omap in Hj as (s & Hs & Heq).
    exists s. destruct (s_faceEncoding s) as [[|y enc']|]; try discriminate.
    injection Heq as <- <-. auto. }
  destruct Hs as (s & Hs & Hid & Henc & Hne).
  apply list_elem_of_lookup in Hs as [i Hi].
  assert (Hpool : collect_detected_faces [Some detected] = detected).
  { rewrite collect_detected_faces_join. cbn. apply app_nil_r. }
  assert (He : e ∈ detected) by (eapply list_elem_of_lookup_2; eassumption).
  unfold process_attendance. cbn [length Nat.eqb]. rewrite Hpool.
  destruct detected as [|e0 detected]; [inversion He|].
  cbn [length Nat.eqb results_of results].
  pose proof (attendance_loop_pointwise face_distance (e0 :: detected)
                (verdict_against_pool face_distance (e0 :: detected))
                (attendance_step_verdict face_distance (e0 :: detected))
                students) as Hall.
  destruct (Forall2_lookup_l _ _ _ _ _ Hall Hi) as (a & Ha & _ & Hv).
  exists i, s, a. split; [exact Hi|]. split; [exact Hid|]. split; [exact Ha|].
  destruct (Hv enc Henc Hne) as [(Hst & Hdet & _)|(_ & _ & _ & _ & Hfar)].
  - auto.
  - exfalso. specialize (Hfar e He). lra.
Qed.


End AcrossEndpoints.

(** * The further properties on concrete requests *)

Lemma match_face_ids_are_detect_ids_witness :
  exists dresp m,
    detect_faces photo_two_faces = inr dresp /\
    match_faces dist1
      (match_request (map df_encoding (d_faces dresp)) [("A", [0])] None) =
      inr m /\
    forall x, x ∈ matches m ->
      exists f student_id enc,
        d_faces dresp !! faceId x = Some f /\
        df_id f = faceId x /\
        (student_id, enc) ∈ [("A", [0])] /\
        studentId x = student_id /\
        distance x = Fin (dist1 enc (df_encoding f)) /\
        dist1 enc (df_encoding f) < default (6 # 10) None.
Proof.
  do 2 eexists. split; [vm_compute; reflexivity|].
  split; [vm_compute; reflexivity|].
  eapply (match_face_ids_are_detect_ids dist1 photo_two_faces _ [("A", [0])]
            None _); vm_compute; reflexivity.
Defined.

Lemma match_faces_tolerance_monotone_witness :
  3 # 10 <= 6 # 10 /\
  match_of_A 0 [1 # 10] ∈
    matches_of (match_faces dist1
                  (match_request [[1 # 10]] [("A", [0])] (Some (6 # 10)))).
Proof.
  assert (Hle : 3 # 10 <= 6 # 10) by (apply Qle_bool_iff; reflexivity).
  split; [exact Hle|].
  apply (match_faces_tolerance_monotone dist1 [[1 # 10]] [("A", [0])]
           (3 # 10) (6 # 10) (match_of_A 0 [1 # 10]) Hle).
  vm_compute. constructor.
Defined.

Lemma recognized_identities_characterised_witness :
  exists r,
    recognize_faces dist1 exn_str Qminus round4_decimal known_AB two_faces (4 # 10) = inr r /\
    ("A" ∈ map rf_id (recognized r) <->
     exists e loc k,
       (e, loc) ∈ two_faces /\
       known_AB !! argmin (map (fun k => dist1 (kf_encoding k) e) known_AB) =
         Some k /\
       dist1 (kf_encoding k) e <= 1 - (4 # 10) /\
       kf_id k = "A").
Proof.
  eexists. split; [vm_compute; reflexivity|].
  apply (recognized_identities_characterised dist1 exn_str Qminus
           round4_decimal known_AB two_faces (4 # 10)).
  vm_compute. reflexivity.
Defined.

Lemma recognized_identities_threshold_monotone_witness :
  (forall a b : Q, a <= b -> 1 - b <= 1 - a) /\
  2 # 10 <= 4 # 10 /\
  exists r',
    recognize_faces dist1 exn_str Qminus round4_decimal known_AB two_faces (2 # 10) = inr r' /\
    "A" ∈ map rf_id (recognized r').
Proof.
  assert (Hle : 2 # 10 <= 4 # 10) by (apply Qle_bool_iff; reflexivity).
  assert (Hmono : forall a b : Q, a <= b -> 1 - b <= 1 - a)
    by (intros a b Hab; lra).
  split; [exact Hmono|]. split; [exact Hle|].
  eexists. split; [vm_compute; reflexivity|].
  eapply (recognized_identities_threshold_monotone dist1 exn_str Qminus
            round4_decimal known_AB two_faces (4 # 10) (2 # 10) _ _ "A"
            Hmono Hle);
    [vm_compute; reflexivity | vm_compute; reflexivity | vm_compute; constructor].
Defined.

Lemma recognized_count_bounded_witness :
  exists r,
    recognize_faces dist1 exn_str Qminus round4_decimal known_AB two_faces (4 # 10) = inr r /\
    (length (recognized r) <= length known_AB)%nat /\
    (length (recognized r) <= length two_faces)%nat.
Proof.
  eexists. split; [vm_compute; reflexivity|].
  apply (recognized_count_bounded dist1 exn_str Qminus round4_decimal
           known_AB two_faces (4 # 10)).
  vm_compute. reflexivity.
Defined.

Lemma process_attendance_skips_empty_photos_witness :
  process_attendance dist1 ([Some [[0]]] ++ None :: []) (Some [student_A]) =
  process_attendance dist1 ([Some [[0]]] ++ []) (Some [student_A]).
Proof.
  apply (process_attendance_skips_empty_photos dist1 [Some [[0]]] [] None
           (Some [student_A]));
    [left; reflexivity | discriminate].
Defined.

Lemma process_attendance_verdict_of_student_witness :
  exists resp,
    process_attendance dist1 [Some [[0]]] (Some [student_none; student_A]) =
      inr resp /\
    exists a,
      results resp !! 1%nat = Some a /\
      verdict_against_pool dist1 (collect_detected_faces [Some [[0]]])
        student_A a.
Proof.
  eexists. split; [vm_compute; reflexivity|].
  apply (process_attendance_verdict_of_student dist1 [Some [[0]]]
           [student_none; student_A] _ 1%nat student_A);
    [vm_compute; reflexivity | vm_compute; discriminate | reflexivity].
Defined.

Lemma process_attendance_records_consistent_witness :
  consistent_verdict (no_reference_verdict student_none).
Proof.
  apply (process_attendance_records_consistent dist1 [Some [[0]]]
           (Some [student_none; student_A])).
  vm_compute. constructor.
Defined.

Lemma process_attendance_photo_order_witness :
  Forall2 same_verdict
    (results_of (process_attendance dist1 [Some [[0]]; Some [[1 # 10]]]
                   (Some [student_none; student_A])))
    (results_of (process_attendance dist1 [Some [[1 # 10]]; Some [[0]]]
                   (Some [student_none; student_A]))).
Proof.
  apply (process_attendance_photo_order dist1 [Some [[0]]; Some [[1 # 10]]]
           [Some [[1 # 10]]; Some [[0]]] (Some [student_none; student_A])).
  apply perm_swap.
Defined.

Lemma process_attendance_totals_witness :
  exists resp,
    process_attendance dist1 [Some [[0]]] (Some [student_none; student_A]) =
      inr resp /\
    exists n,
      totalMatched resp = Some n /\
      totalStudents resp = Some (length (results resp)) /\
      length (results resp) = length [student_none; student_A] /\
      totalDetected resp = Some (length (collect_detected_faces [Some [[0]]])) /\
      (n <= length (List.filter a_detected (results resp)))%nat /\
      (NoDup (map s_id [student_none; student_A]) ->
       n = length (List.filter a_detected (results resp))).
Proof.
  eexists. split; [vm_compute; reflexivity|].
  apply (process_attendance_totals dist1 [Some [[0]]]
           [student_none; student_A]);
    [vm_compute; reflexivity | vm_compute; discriminate].
Defined.

Lemma matched_student_is_present_witness :
  exists i s a,
    [student_A] !! i = Some s /\
    s_id s = studentId (match_of_A 0 [1 # 10]) /\
    results_of (process_attendance dist1 [Some [[1 # 10]]] (Some [student_A]))
      !! i = Some a /\
    a_status a = "PRESENT" /\ a_detected a = true.
Proof.
  apply (matched_student_is_present dist1 [[1 # 10]] [student_A]
           (match_of_A 0 [1 # 10])).
  vm_compute. constructor.
Defined.

